(** * Keyword search agent: a shallow embedding of [search_agent.py]

    The program turns a topic into keywords and a boolean search query.
    Python text is modelled as a list of Unicode code points; the tables of
    the Unicode character database that the program consults through
    [str.isalpha], [str.upper], [str.strip] and the regular-expression
    classes [\d], [\s] and [\w] are kept abstract outside ASCII (class
    [UnicodeDB]), so every property holds whatever these tables are. The two
    HTTP services are functions from requests to outcomes, standard output
    is a function from the texts printed to outcomes ([console]), and a
    Python call either returns a value or raises an exception
    ([outcome]). *)

From Stdlib Require Import String Ascii.
From Stdlib Require Import List NArith ZArith Bool Lia.
Import ListNotations.
Local Open Scope N_scope.
Local Set Warnings "-register-all".

(** ** Text *)

Definition codepoint := N.
Definition str := list codepoint.

(** An ASCII literal as Python text. *)
Definition lit (s : string) : str := map N_of_ascii (list_ascii_of_string s).

(** The double quote and the apostrophe. *)
Definition dq : codepoint := 34.
Definition sq : codepoint := 39.

Fixpoint str_eqb (a b : str) : bool :=
  match a, b with
  | [], [] => true
  | x :: a', y :: b' => (x =? y) && str_eqb a' b'
  | _, _ => false
  end.

Definition in_range (lo hi c : codepoint) : bool := (lo <=? c) && (c <=? hi).

(** [sep.join(l)] *)
Fixpoint join (sep : str) (l : list str) : str :=
  match l with
  | [] => []
  | [x] => x
  | x :: t => x ++ sep ++ join sep t
  end.

Definition nl : codepoint := 10.

(** [s.lstrip(chars)], [s.rstrip(chars)] and [s.strip(chars)], the set of
    characters given as a predicate. *)
Fixpoint lstrip (p : codepoint -> bool) (s : str) : str :=
  match s with
  | [] => []
  | c :: t => if p c then lstrip p t else s
  end.

Definition rstrip (p : codepoint -> bool) (s : str) : str :=
  rev (lstrip p (rev s)).

Definition strip (p : codepoint -> bool) (s : str) : str :=
  rstrip p (lstrip p s).

(** [s.split(d)] for a one-character separator: never an empty list. *)
Fixpoint split_on (d : codepoint) (s : str) : list str :=
  match s with
  | [] => [[]]
  | c :: t =>
      if c =? d then [] :: split_on d t
      else match split_on d t with
           | l :: ls => (c :: l) :: ls
           | [] => [[c]]
           end
  end.

(** [a or b] on strings. *)
Definition or_else (a b : str) : str :=
  match a with [] => b | _ :: _ => a end.

(** ** Results and exceptions *)

Inductive exn : Type :=
| ConnectionError
| HTTPError (status : Z)
| JSONDecodeError
| UnicodeEncodeError
| AttributeError
| TypeError
| KeyError
| ValidationError.

Inductive outcome (A : Type) : Type :=
| Returns (a : A)
| Raises (e : exn).
Arguments Returns {A} a.
Arguments Raises {A} e.

Definition bind {A B : Type} (m : outcome A) (k : A -> outcome B) : outcome B :=
  match m with
  | Returns a => k a
  | Raises e => Raises e
  end.

Notation "x <- m ;; k" := (bind m (fun x => k))
  (at level 61, m at next level, right associativity).

(** [try: body  except Exception: return fallback] *)
Definition try_except {A : Type} (body : outcome A) (fallback : A) : outcome A :=
  match body with
  | Returns a => Returns a
  | Raises _ => Returns fallback
  end.

(** ** JSON values and HTTP *)

(** A decoded JSON document. Of a float the program observes only whether
    it is zero. An object keeps its members in document order. *)
Inductive json : Type :=
| JNull
| JBool (b : bool)
| JInt (z : Z)
| JFloat (zero : bool)
| JStr (s : str)
| JArr (l : list json)
| JObj (members : list (str * json)).

(** [bool(v)] *)
Definition truthy (v : json) : bool :=
  match v with
  | JNull => false
  | JBool b => b
  | JInt z => negb (z =? 0)%Z
  | JFloat zero => negb zero
  | JStr s => match s with [] => false | _ => true end
  | JArr l => match l with [] => false | _ => true end
  | JObj m => match m with [] => false | _ => true end
  end.

(** The value of a key in a decoded object: the last member of that name. *)
Fixpoint members_get (m : list (str * json)) (key : str) : option json :=
  match m with
  | [] => None
  | (k, v) :: m' =>
      match members_get m' key with
      | Some v' => Some v'
      | None => if str_eqb k key then Some v else None
      end
  end.

(** [data.get(key, default)] *)
Definition dict_get (data : json) (key : str) (default : json) : outcome json :=
  match data with
  | JObj m => Returns match members_get m key with Some v => v | None => default end
  | _ => Raises AttributeError
  end.

(** [data[key]] for a string key *)
Definition subscript (data : json) (key : str) : outcome json :=
  match data with
  | JObj m => match members_get m key with Some v => Returns v | None => Raises KeyError end
  | _ => Raises TypeError
  end.

(** An HTTP response: [body] is [None] when [response.json()] cannot decode
    it. *)
Record response : Type := {
  status_code : Z;
  body : option json
}.

Definition raise_for_status (r : response) : outcome unit :=
  if ((400 <=? status_code r) && (status_code r <? 600))%Z
  then Raises (HTTPError (status_code r))
  else Returns tt.

Definition response_json (r : response) : outcome json :=
  match body r with
  | Some v => Returns v
  | None => Raises JSONDecodeError
  end.

(** The two services: what [requests.get(url)] and
    [requests.post(url, json=payload)] do. *)
Record services : Type := {
  http_get : str -> outcome response;
  http_post : str -> json -> outcome response
}.

(** ** [urllib.parse.quote] *)

Definition hex_digit (n : N) : codepoint :=
  if n <? 10 then 48 + n else 55 + n.

Definition percent (byte : N) : str :=
  [37; hex_digit (byte / 16); hex_digit (byte mod 16)].

(** UTF-8, strict: a surrogate cannot be encoded. *)
Definition utf8 (c : codepoint) : outcome (list N) :=
  if c <? 128 then Returns [c]
  else if c <? 2048 then Returns [192 + c / 64; 128 + c mod 64]
  else if in_range 55296 57343 c then Raises UnicodeEncodeError
  else if c <? 65536 then
    Returns [224 + c / 4096; 128 + (c / 64) mod 64; 128 + c mod 64]
  else
    Returns [240 + c / 262144; 128 + (c / 4096) mod 64;
             128 + (c / 64) mod 64; 128 + c mod 64].

(** Letters, digits, [_ . - ~] and the default [safe] character [/]. *)
Definition always_safe (c : codepoint) : bool :=
  in_range 65 90 c || in_range 97 122 c || in_range 48 57 c
  || (c =? 95) || (c =? 46) || (c =? 45) || (c =? 126) || (c =? 47).

Fixpoint quote (s : str) : outcome str :=
  match s with
  | [] => Returns []
  | c :: t =>
      if always_safe c then (r <- quote t ;; Returns (c :: r))
      else (bytes <- utf8 c ;; r <- quote t ;;
            Returns (flat_map percent bytes ++ r))
  end.

(** ** Standard output *)

(** What the [n]-th call of [print] during a request does with its text:
    it writes the text and a line break to standard output and returns, or
    it raises (a text the stream cannot encode, a closed stream). The
    program never reads back what it printed. *)
Record console : Type := {
  print : nat -> str -> outcome unit
}.

Fixpoint uint_digits (u : Decimal.uint) : str :=
  match u with
  | Decimal.Nil => []
  | Decimal.D0 u => 48 :: uint_digits u
  | Decimal.D1 u => 49 :: uint_digits u
  | Decimal.D2 u => 50 :: uint_digits u
  | Decimal.D3 u => 51 :: uint_digits u
  | Decimal.D4 u => 52 :: uint_digits u
  | Decimal.D5 u => 53 :: uint_digits u
  | Decimal.D6 u => 54 :: uint_digits u
  | Decimal.D7 u => 55 :: uint_digits u
  | Decimal.D8 u => 56 :: uint_digits u
  | Decimal.D9 u => 57 :: uint_digits u
  end.

(** A length as an f-string shows it: in decimal. *)
Definition decimal (n : nat) : str := uint_digits (Nat.to_uint n).

(** The part of the Unicode character database the program reads, on code
    points from 128 up. On ASCII the functions below decide by themselves. *)
Class UnicodeDB : Type := {
  uni_isalpha : codepoint -> bool;
  uni_isdecimal : codepoint -> bool;
  uni_isalnum : codepoint -> bool;
  uni_isspace : codepoint -> bool;
  uni_upper : codepoint -> str
}.

(** A database that knows no letters, digits or case mappings outside
    ASCII. It serves to run the program on ASCII inputs, where the database
    is never consulted. *)
Definition ascii_db : UnicodeDB :=
  {| uni_isalpha := fun _ => false;
     uni_isdecimal := fun _ => false;
     uni_isalnum := fun _ => false;
     uni_isspace := fun _ => false;
     uni_upper := fun c => [c] |}.

Section Program.
Context {U : UnicodeDB}.

(** [c.isalpha()] *)
Definition isalpha (c : codepoint) : bool :=
  if c <? 128 then in_range 65 90 c || in_range 97 122 c else uni_isalpha c.

(** [s.upper()]: every code point is replaced by its full upper-case
    mapping. *)
Definition upper_cp (c : codepoint) : str :=
  if in_range 97 122 c then [c - 32]
  else if c <? 128 then [c]
  else uni_upper c.

Definition upper (s : str) : str := flat_map upper_cp s.

(** [c.isspace()], which is also the regular-expression class [\s]. *)
Definition isspace (c : codepoint) : bool :=
  if c <? 128 then in_range 9 13 c || in_range 28 32 c else uni_isspace c.

(** The regular-expression class [\d]. *)
Definition isdecimal (c : codepoint) : bool :=
  if c <? 128 then in_range 48 57 c else uni_isdecimal c.

(** The regular-expression class [\w]. *)
Definition isword (c : codepoint) : bool :=
  if c <? 128 then
    in_range 48 57 c || in_range 65 90 c || in_range 97 122 c || (c =? 95)
  else uni_isalnum c.

(** ** Script classifier *)

Definition indian_script_patterns : list (codepoint * codepoint) :=
  [ (0x0900, 0x097F);   (* Devanagari *)
    (0x0B80, 0x0BFF);   (* Tamil *)
    (0x0C00, 0x0C7F);   (* Telugu *)
    (0x0C80, 0x0CFF);   (* Kannada *)
    (0x0D00, 0x0D7F);   (* Malayalam *)
    (0x0A80, 0x0AFF);   (* Gujarati *)
    (0x0A00, 0x0A7F);   (* Gurmukhi *)
    (0x0980, 0x09FF);   (* Bengali / Assamese *)
    (0x0B00, 0x0B7F) ]. (* Odia *)

(** [re.search('[lo-hi]', s)] as a truth value. *)
Definition search_range (pattern : codepoint * codepoint) (s : str) : bool :=
  existsb (in_range (fst pattern) (snd pattern)) s.

(** [True] stands for the ASCII-compatible class, [False] for the Indic
    one. *)
Definition is_ascii (s : str) : bool :=
  if existsb (fun pattern => search_range pattern s) indian_script_patterns
  then false
  else forallb (fun c => c <? 128) (filter isalpha s).

(** ** Keyword source adapter *)

(** The class [[a-zA-Z0-9&]]. *)
Definition keyword_char (c : codepoint) : bool :=
  in_range 97 122 c || in_range 65 90 c || in_range 48 57 c || (c =? 38).

Definition isword_opt (c : option codepoint) : bool :=
  match c with Some c => isword c | None => false end.

(** [\b] between two neighbouring positions ([None]: no character). *)
Definition boundary (before after : option codepoint) : bool :=
  xorb (isword_opt before) (isword_opt after).

(** [[a-zA-Z0-9&]+\b] at the front of [t]: the length of the longest run of
    class characters that ends at a word boundary. *)
Fixpoint match_tail (t : str) : option nat :=
  match t with
  | [] => None
  | c :: t' =>
      if keyword_char c then
        match match_tail t' with
        | Some n => Some (S n)
        | None => if boundary (Some c) (hd_error t') then Some 1%nat else None
        end
      else None
  end.

(** [re.findall(r'\b[A-Z][a-zA-Z0-9&]+\b', s)], scanning from the left;
    [prev] is the character before [s], and the first [skip] characters of
    [s] belong to the match just found. *)
Fixpoint findall_from (skip : nat) (prev : option codepoint) (s : str) : list str :=
  match s with
  | [] => []
  | c :: t =>
      match skip with
      | S k => findall_from k (Some c) t
      | O =>
          if in_range 65 90 c && boundary prev (Some c) then
            match match_tail t with
            | Some n => (c :: firstn n t) :: findall_from n (Some c) t
            | None => findall_from 0 (Some c) t
            end
          else findall_from 0 (Some c) t
      end
  end.

Definition findall_keywords (s : str) : list str := findall_from 0 None s.

(** [re.findall] on a JSON value: only text can be searched. *)
Definition re_findall (v : json) : outcome (list str * str) :=
  match v with
  | JStr s => Returns (findall_keywords s, s)
  | _ => Raises TypeError
  end.

(** [list(dict.fromkeys(l))]: a key that is already there keeps its
    place. *)
Definition fromkeys (l : list str) : list str :=
  fold_left (fun keys k => if existsb (str_eqb k) keys then keys else keys ++ [k])
            l [].

Definition default_api_url : str :=
  lit "http://172.31.32.224:9001/search-keywords".

Definition fetch_body (w : services) (topic api_url : str) : outcome (list str * str) :=
  q <- quote topic ;;
  response <- http_get w (api_url ++ lit "?keyword=" ++ q) ;;
  if (status_code response =? 404)%Z then Returns ([], [])
  else
    _ <- raise_for_status response ;;
    data <- response_json response ;;
    news_content <- dict_get data (lit "news") (JStr []) ;;
    if negb (truthy news_content) then Returns ([], [])
    else
      found <- re_findall news_content ;;
      Returns (fromkeys (fst found), snd found).

Definition fetch_keywords_from_api (w : services) (topic api_url : str)
  : outcome (list str * str) :=
  try_except (fetch_body w topic api_url) ([], []).

(** ** Keyword expansion engine *)

Definition rsquo : codepoint := 0x2019.

Definition english_prompt (topic context : str) : str :=
  concat
    [ [nl];
      lit "    You are a keyword generator for social media monitoring."; [nl];
      [nl];
      lit "    Task:"; [nl];
      lit "    - The user query is: "; [dq]; topic; [dq]; [nl];
      lit "    - Context from news or API: "; [dq]; context; [dq]; [nl];
      [nl];
      lit "    Instructions:"; [nl];
      lit "    - Always generate keywords, hashtags, or short phrases that are **specific to India or India";
      [rsquo]; lit "s perspective** on this topic."; [nl];
      lit "    - If the query is global (like Trump tariff, Climate change, Ukraine war), localize it to **India";
      [rsquo]; lit "s relevance** (e.g., ";
      [dq]; lit "Trump India tariff"; [dq]; lit ", ";
      [dq]; lit "India-US trade war"; [dq]; lit ", ";
      [dq]; lit "India climate policy"; [dq]; lit ")."; [nl];
      lit "    - Output 10 to 15 unique keywords or hashtags commonly used on Indian social media (Twitter/X, Instagram, Facebook).";
      [nl];
      lit "    - Do not translate, do not explain. Only return one keyword or hashtag per line.    ";
      [nl];
      lit "    "; [nl];
      lit "    " ].

Definition indian_prompt (topic context : str) : str :=
  concat
    [ [nl];
      lit "    You are a keyword generator for social media monitoring in India."; [nl];
      [nl];
      lit "    Task:"; [nl];
      lit "    - The user query is: "; [dq]; topic; [dq]; [nl];
      lit "    - Context from news or API: "; [dq]; context; [dq]; [nl];
      [nl];
      lit "    Instructions:"; [nl];
      lit "    - Always generate 15 to 20 keywords, hashtags, or short phrases that are **specific to India or India";
      [rsquo]; lit "s perspective** on this topic."; [nl];
      lit "    - If the input query is in an Indian language (Hindi, Tamil, Bengali, etc.), generate most keywords in that language and some in English.";
      [nl];
      lit "    - Make sure outputs are the kind of words, hashtags, or phrases actually used on Indian social media (Twitter/X, Facebook, Instagram).";
      [nl];
      lit "    - Do NOT translate the query into another language."; [nl];
      lit "    - Only return one keyword/hashtag per line, no explanations."; [nl];
      lit "    " ].

(** The characters of the class [[\.\-\)\s]]. *)
Definition marker_char (c : codepoint) : bool :=
  (c =? 46) || (c =? 45) || (c =? 41) || isspace c.

(** [re.sub(r"^\d+[\.\-\)\s]*", "", line)] *)
Definition sub_enumeration (line : str) : str :=
  match line with
  | [] => []
  | c :: _ =>
      if isdecimal c then lstrip marker_char (lstrip isdecimal line) else line
  end.

(** [.*?] followed by the character [close], at the front of [t]: the number
    of characters up to and including the first [close], which no line
    break may precede. *)
Fixpoint find_close (close : codepoint) (t : str) : option nat :=
  match t with
  | [] => None
  | c :: t' =>
      if c =? close then Some 1%nat
      else if c =? nl then None
      else option_map S (find_close close t')
  end.

(** [re.sub(r"\(.*?\)|\[.*?\]", "", s)], scanning from the left; the first
    [skip] characters of [s] belong to the match just found. *)
Fixpoint sub_annotations_from (skip : nat) (s : str) : str :=
  match s with
  | [] => []
  | c :: t =>
      match skip with
      | S k => sub_annotations_from k t
      | O =>
          match (if c =? 40 then find_close 41 t
                 else if c =? 91 then find_close 93 t
                 else None) with
          | Some n => sub_annotations_from n t
          | None => c :: sub_annotations_from 0 t
          end
      end
  end.

Definition sub_annotations (s : str) : str := sub_annotations_from 0 s.

(** One turn of the loop over the lines of the model's answer. *)
Definition parse_line (keywords : list str) (line : str) : list str :=
  let line := strip isspace line in
  match line with
  | [] => keywords
  | _ :: _ =>
      let cleaned := sub_enumeration line in
      let cleaned := sub_annotations cleaned in
      keywords ++ [strip isspace (strip (N.eqb sq) (strip (N.eqb dq) cleaned))]
  end.

Definition parse_keywords (result : str) : list str :=
  fold_left parse_line (split_on nl result) [].

(** [result.split("\n")] needs text. *)
Definition as_text (v : json) : outcome str :=
  match v with
  | JStr s => Returns s
  | _ => Raises AttributeError
  end.

Definition default_model_url : str := lit "http://localhost:11434/api/generate".

(** [context] is [None] when the caller leaves the argument out. *)
Definition expand_keywords_mistral (w : services) (topic : str)
    (context : option str) (model_url : str) : outcome (list str) :=
  let context := match context with Some c => c | None => [] end in
  let prompt := if is_ascii topic then english_prompt topic context
                else indian_prompt topic context in
  let payload := JObj [ (lit "model", JStr (lit "mistral-small3.1:latest"));
                        (lit "prompt", JStr prompt);
                        (lit "stream", JBool false) ] in
  response <- http_post w model_url payload ;;
  data <- response_json response ;;
  answer <- subscript data (lit "response") ;;
  result <- as_text answer ;;
  Returns (parse_keywords result).

(** ** Boolean query composer *)

(** [itertools.combinations(l, 2)] *)
Fixpoint combinations2 {A : Type} (l : list A) : list (A * A) :=
  match l with
  | [] => []
  | x :: t => map (pair x) t ++ combinations2 t
  end.

(** What [build_boolean_queries] returns: a string, a list of strings, or
    [None] when no branch returns. *)
Inductive query : Type :=
| QStr (s : str)
| QList (l : list str)
| QNone.

(** [f'"{k}"'] *)
Definition quoted (k : str) : str := dq :: k ++ [dq].

Definition build_boolean_queries (keywords : list str) (mode : str) : query :=
  match keywords with
  | [] => QStr []
  | _ :: _ =>
      if str_eqb (upper mode) (lit "OR") then
        QStr (join (lit " OR ") (map quoted keywords))
      else if str_eqb (upper mode) (lit "AND") then
        QStr (join (lit " AND ") (map quoted keywords))
      else if str_eqb (upper mode) (lit "COMBO") then
        QList (map (fun c => join (lit " AND ") [fst c; snd c])
                   (combinations2 keywords))
      else QNone
  end.

(** The same control flow read as a relation between a call and the value
    one of its [return] statements (or the fall off the end) yields. *)
Inductive build_returns (keywords : list str) (mode : str) : query -> Prop :=
| ret_empty :
    keywords = [] ->
    build_returns keywords mode (QStr [])
| ret_or :
    keywords <> [] ->
    upper mode = lit "OR" ->
    build_returns keywords mode (QStr (join (lit " OR ") (map quoted keywords)))
| ret_and :
    keywords <> [] ->
    upper mode <> lit "OR" ->
    upper mode = lit "AND" ->
    build_returns keywords mode (QStr (join (lit " AND ") (map quoted keywords)))
| ret_combo :
    keywords <> [] ->
    upper mode <> lit "OR" ->
    upper mode <> lit "AND" ->
    upper mode = lit "COMBO" ->
    build_returns keywords mode
      (QList (map (fun c => join (lit " AND ") [fst c; snd c])
                  (combinations2 keywords)))
| ret_none :
    keywords <> [] ->
    upper mode <> lit "OR" ->
    upper mode <> lit "AND" ->
    upper mode <> lit "COMBO" ->
    build_returns keywords mode QNone.

(** ** Pipeline orchestrator *)

Record QueryResponse : Type := {
  keywords : list str;
  boolean_query : str
}.

(** The response model admits only a string as [boolean_query]. *)
Definition make_response (refined : list str) (q : query) : outcome QueryResponse :=
  match q with
  | QStr s => Returns {| keywords := refined; boolean_query := s |}
  | _ => Raises ValidationError
  end.

(** The texts of the two progress reports the orchestrator prints. *)
Definition initial_report (initial_keywords : list str) (news_content : str) : str :=
  lit "Initial keywords: " ++ decimal (length initial_keywords)
  ++ lit ", News content: " ++ decimal (length news_content).

Definition completion_report (topic : str) (refined_keywords : list str) : str :=
  lit "Completed processing for topic: " ++ topic
  ++ lit ", keywords: " ++ decimal (length refined_keywords).

(** The orchestrator, with the expansion engine it calls as a parameter:
    [expand topic None] is the call [expand_keywords_mistral(topic)] and
    [expand topic (Some c)] the call
    [expand_keywords_mistral(topic, context=c)]. It prints a report after
    the lookup and another, which shows the topic, before it builds the
    response. *)
Definition agent_pipeline_with (out : console)
    (expand : str -> option str -> outcome (list str))
    (w : services) (topic : str) : outcome QueryResponse :=
  found <- fetch_keywords_from_api w topic default_api_url ;;
  let initial_keywords := fst found in
  let news_content := snd found in
  _ <- print out 0 (initial_report initial_keywords news_content) ;;
  refined_keywords <-
    match initial_keywords, news_content with
    | [], [] => expand topic None
    | _, _ =>
        expand topic
          (Some (or_else (join (lit ", ") initial_keywords) news_content))
    end ;;
  let boolean_query := build_boolean_queries refined_keywords (lit "OR") in
  _ <- print out 1 (completion_report topic refined_keywords) ;;
  make_response refined_keywords boolean_query.

Definition agent_pipeline (out : console) (w : services) (topic : str)
  : outcome QueryResponse :=
  agent_pipeline_with out
    (fun topic context => expand_keywords_mistral w topic context default_model_url)
    w topic.

End Program.

(** * Vocabulary of the properties *)

(** ** Composer *)

(** A spelling of [target] in which any letter may be lower case. *)
Definition case_variant (mode target : str) : Prop :=
  Forall2 (fun c t => c = t \/ c = t + 32) mode target.

Ltac case_variant_tac :=
  unfold case_variant; simpl;
  repeat first
    [ apply Forall2_nil
    | apply Forall2_cons; [first [left; reflexivity | right; reflexivity]|] ].

(** ** Script classifier *)

(** Membership of a code point in one of the nine blocks. *)
Definition in_indic_block (c : codepoint) : bool :=
  existsb (fun pattern => in_range (fst pattern) (snd pattern) c)
          indian_script_patterns.

(** The spec's names for the two answers of [is_ascii]. *)
Inductive ScriptClass : Type := ASCII_COMPATIBLE | INDIC.

Definition classify {U : UnicodeDB} (text : str) : ScriptClass :=
  if is_ascii text then ASCII_COMPATIBLE else INDIC.

(** "जीएसटी बदलाव" *)
Definition gst_badlav : str :=
  [0x091C; 0x0940; 0x090F; 0x0938; 0x091F; 0x0940; 32;
   0x092C; 0x0926; 0x0932; 0x093E; 0x0935].

(** ** Keyword source adapter *)

(** Deduplication that keeps the first occurrence of every string, in the
    order of first occurrence. *)
Fixpoint dedup_first (l : list str) : list str :=
  match l with
  | [] => []
  | x :: t => x :: filter (fun y => negb (str_eqb y x)) (dedup_first t)
  end.

(** A capital letter followed by one or more letters, digits or
    ampersands. *)
Definition capitalised (k : str) : Prop :=
  exists c r, k = c :: r /\ in_range 65 90 c = true /\ r <> []
              /\ forallb keyword_char r = true.

Section Separators.
Context {U : UnicodeDB}.




End Separators.

(** What the lookup request yields: the topic is percent-encoded, then the
    service is asked. *)
Definition lookup_response (w : services) (topic api_url : str) : outcome response :=
  q <- quote topic ;; http_get w (api_url ++ lit "?keyword=" ++ q).

(** The behaviours of the lookup service that leave the adapter without
    usable content: a failed request (transport failure, timeout, a topic
    that cannot be encoded), a 404 or another error status, a body that is
    not JSON or not an object, a missing or empty [news] member, and a
    [news] member that is not text. *)
Inductive lookup_unavailable (w : services) (topic api_url : str) : Prop :=
| lu_failure e :
    lookup_response w topic api_url = Raises e ->
    lookup_unavailable w topic api_url
| lu_not_found resp :
    lookup_response w topic api_url = Returns resp ->
    status_code resp = 404%Z ->
    lookup_unavailable w topic api_url
| lu_error_status resp :
    lookup_response w topic api_url = Returns resp ->
    (400 <= status_code resp < 600)%Z ->
    lookup_unavailable w topic api_url
| lu_undecodable resp :
    lookup_response w topic api_url = Returns resp ->
    body resp = None ->
    lookup_unavailable w topic api_url
| lu_not_object resp data :
    lookup_response w topic api_url = Returns resp ->
    body resp = Some data ->
    (forall m, data <> JObj m) ->
    lookup_unavailable w topic api_url
| lu_no_content resp m :
    lookup_response w topic api_url = Returns resp ->
    body resp = Some (JObj m) ->
    truthy match members_get m (lit "news") with
           | Some v => v
           | None => JStr (lit "")
           end = false ->
    lookup_unavailable w topic api_url
| lu_not_text resp m v :
    lookup_response w topic api_url = Returns resp ->
    body resp = Some (JObj m) ->
    members_get m (lit "news") = Some v ->
    (forall s, v <> JStr s) ->
    lookup_unavailable w topic api_url.

(** Sample services. A lookup service that cannot be reached, beside a
    model service that answers with the given text. *)
Definition unreachable (answer : str) : services :=
  {| http_get := fun _ => Raises ConnectionError;
     http_post := fun _ _ =>
       Returns {| status_code := 200;
                  body := Some (JObj [(lit "response", JStr answer)]) |} |}.

(** A lookup service that answers 404 and a model service that cannot be
    reached. *)
Definition model_unreachable : services :=
  {| http_get := fun _ => Returns {| status_code := 404; body := None |};
     http_post := fun _ _ => Raises ConnectionError |}.

(** A lookup service that answers every request with the given status and
    body, beside a model service that answers with the given text. *)
Definition answering (status : Z) (doc : option json) (answer : str) : services :=
  {| http_get := fun _ => Returns {| status_code := status; body := doc |};
     http_post := fun _ _ =>
       Returns {| status_code := 200;
                  body := Some (JObj [(lit "response", JStr answer)]) |} |}.

(** ** Parser of the expansion engine *)

(** No [open] character of [s] has a [close] character after it. *)
Definition no_annotation (open close : codepoint) (s : str) : Prop :=
  forall a b, s = a ++ open :: b -> ~ In close b.

Section Cleaning.
Context {U : UnicodeDB}.

(** The test [if line:] of the loop, on the raw line. *)
Definition non_blank (line : str) : bool :=
  match strip isspace line with [] => false | _ :: _ => true end.

(** What the loop body makes of a stripped, non-blank line. *)
Definition clean_line (line : str) : str :=
  strip isspace
    (strip (N.eqb sq) (strip (N.eqb dq) (sub_annotations (sub_enumeration line)))).

End Cleaning.

(** ** Deletion of characters *)

(** [subseq a b]: [a] is [b] with some characters deleted. *)
Inductive subseq : str -> str -> Prop :=
| subseq_nil : subseq [] []
| subseq_keep c a b : subseq a b -> subseq (c :: a) (c :: b)
| subseq_drop c a b : subseq a b -> subseq a (c :: b).

(** ** Standard output in UTF-8 *)

(** [text.encode("utf-8")], strict. *)
Fixpoint encode_utf8 (text : str) : outcome (list N) :=
  match text with
  | [] => Returns []
  | c :: t => bytes <- utf8 c ;; rest <- encode_utf8 t ;; Returns (bytes ++ rest)
  end.

(** A standard output that encodes in UTF-8 and is never closed: [print]
    fails exactly on a text that cannot be encoded. *)
Definition utf8_console : console :=
  {| print := fun _ text => _ <- encode_utf8 text ;; Returns tt |}.

(** ** Request encoding *)

(** The characters [quote] can leave in its result: the safe ones and the
    percent sign. *)
Definition url_safe (c : codepoint) : bool := always_safe c || (c =? 37).

(** The surrogate code points, which UTF-8 cannot encode. *)
Definition surrogate (c : codepoint) : bool := in_range 55296 57343 c.

(** ** Requests of the expansion engine and plain answers *)

Section Expansion.
Context {U : UnicodeDB}.

(** The JSON document the expansion engine posts for a topic and a
    context. *)
Definition expansion_payload (topic : str) (context : option str) : json :=
  JObj [ (lit "model", JStr (lit "mistral-small3.1:latest"));
         (lit "prompt",
          JStr (if is_ascii topic
                then english_prompt topic match context with Some c => c | None => [] end
                else indian_prompt topic match context with Some c => c | None => [] end));
         (lit "stream", JBool false) ].

(** A line the cleaning has nothing to remove from: no opening parenthesis
    or bracket, no digit or quote in front, no quote at the end. *)
Definition plain (line : str) : Prop :=
  ~ In 40 line /\ ~ In 91 line
  /\ (forall c t, line = c :: t -> isdecimal c = false /\ c <> dq /\ c <> sq)
  /\ (forall t c, line = t ++ [c] -> c <> dq /\ c <> sq).

End Expansion.

(** * Properties *)

Lemma str_eqb_eq (a b : str) : str_eqb a b = true <-> a = b.
Proof.
  revert b; induction a as [|x a IH]; intros [|y b]; simpl; split;
    try congruence; try reflexivity.
  - rewrite andb_true_iff, N.eqb_eq, IH. intros [-> ->]; reflexivity.
  - intros E; injection E as -> ->.
    rewrite N.eqb_refl; simpl. apply IH; reflexivity.
Qed.

Lemma str_eqb_refl (a : str) : str_eqb a a = true.
Proof. apply str_eqb_eq; reflexivity. Qed.

Lemma str_eqb_neq (a b : str) : str_eqb a b = false <-> a <> b.
Proof.
  rewrite <- str_eqb_eq. destruct (str_eqb a b); split; congruence.
Qed.

(** ** The composer *)

Section ComposerFacts.
Context {U : UnicodeDB}.

Lemma build_or (k : str) (ks : list str) (mode : str) :
  upper mode = lit "OR" ->
  build_boolean_queries (k :: ks) mode
  = QStr (join (lit " OR ") (map quoted (k :: ks))).
Proof.
  intros E. unfold build_boolean_queries. rewrite E. reflexivity.
Qed.

Lemma build_and (k : str) (ks : list str) (mode : str) :
  upper mode = lit "AND" ->
  build_boolean_queries (k :: ks) mode
  = QStr (join (lit " AND ") (map quoted (k :: ks))).
Proof.
  intros E. unfold build_boolean_queries. rewrite E. reflexivity.
Qed.

Lemma build_combo (k : str) (ks : list str) (mode : str) :
  upper mode = lit "COMBO" ->
  build_boolean_queries (k :: ks) mode
  = QList (map (fun c => fst c ++ lit " AND " ++ snd c)
               (combinations2 (k :: ks))).
Proof.
  intros E. unfold build_boolean_queries. rewrite E. reflexivity.
Qed.

Lemma upper_case_variant (mode target : str) :
  forallb (in_range 65 90) target = true ->
  case_variant mode target ->
  upper mode = target.
Proof.
  intros Hup Hv. induction Hv as [|c t mode target Hct _ IH]; [reflexivity|].
  simpl in Hup. apply andb_true_iff in Hup as [Ht Hup].
  unfold upper in *. simpl. rewrite (IH Hup).
  unfold in_range in Ht. apply andb_true_iff in Ht as [H1 H2].
  apply N.leb_le in H1, H2.
  unfold upper_cp, in_range. destruct Hct as [-> | ->].
  - replace (97 <=? t) with false by (symmetry; apply N.leb_gt; lia).
    simpl. replace (t <? 128) with true by (symmetry; apply N.ltb_lt; lia).
    reflexivity.
  - replace (97 <=? t + 32) with true by (symmetry; apply N.leb_le; lia).
    replace (t + 32 <=? 122) with true by (symmetry; apply N.leb_le; lia).
    simpl. f_equal. f_equal. lia.
Qed.

Lemma build_returns_total (kws : list str) (mode : str) :
  build_returns kws mode (build_boolean_queries kws mode).
Proof.
  destruct kws as [|k ks]; [now apply ret_empty|].
  assert (Hne : k :: ks <> []) by discriminate.
  unfold build_boolean_queries.
  destruct (str_eqb (upper mode) (lit "OR")) eqn:E1.
  { apply str_eqb_eq in E1. now apply ret_or. }
  apply str_eqb_neq in E1.
  destruct (str_eqb (upper mode) (lit "AND")) eqn:E2.
  { apply str_eqb_eq in E2. now apply ret_and. }
  apply str_eqb_neq in E2.
  destruct (str_eqb (upper mode) (lit "COMBO")) eqn:E3.
  { apply str_eqb_eq in E3. now apply ret_combo. }
  apply str_eqb_neq in E3. now apply ret_none.
Qed.

Lemma build_returns_functional (kws : list str) (mode : str) (q1 q2 : query) :
  build_returns kws mode q1 -> build_returns kws mode q2 -> q1 = q2.
Proof.
  intros H1 H2; inversion H1; inversion H2; subst;
    try reflexivity; try congruence.
Qed.

Lemma combinations2_length {A : Type} (l : list A) :
  (2 * length (combinations2 l) = length l * (length l - 1))%nat.
Proof.
  induction l as [|x t IH]; [reflexivity|].
  simpl combinations2. rewrite length_app, length_map.
  change (length (x :: t)) with (S (length t)).
  remember (length (combinations2 t)) as m. remember (length t) as n.
  replace (S n - 1)%nat with n by lia. destruct n; nia.
Qed.

Lemma combinations2_In {A : Type} (l : list A) (a b : A) :
  In (a, b) (combinations2 l) <->
  exists l1 l2 l3, l = l1 ++ a :: l2 ++ b :: l3.
Proof.
  induction l as [|x t IH]; simpl.
  - split; [tauto|]. intros (l1 & l2 & l3 & E). now destruct l1.
  - rewrite in_app_iff, in_map_iff, IH. split.
    + intros [(y & E & Hin) | (l1 & l2 & l3 & ->)].
      * injection E as <- <-. apply in_split in Hin as (l2 & l3 & ->).
        now exists [], l2, l3.
      * now exists (x :: l1), l2, l3.
    + intros (l1 & l2 & l3 & E). destruct l1 as [|y l1]; simpl in E.
      * injection E as <- ->. left. exists b. split; [reflexivity|].
        apply in_or_app. right. now left.
      * injection E as <- ->. right. now exists l1, l2, l3.
Qed.

(** C7. For a non-empty keyword list, a mode spelled [OR] in any mix of
    cases gives the keywords, each between double quotes, joined by
    [" OR "]; a mode spelled [AND] gives the same join with [" AND "]. Two
    modes with the same upper-case form give the same result. With
    keywords [A], [B]: ["A" OR "B"] and ["A" AND "B"]. *)
Theorem build_boolean_queries_or_and (kws : list str) (mode : str) :
  kws <> [] ->
  (case_variant mode (lit "OR") ->
   build_boolean_queries kws mode
   = QStr (join (lit " OR ") (map (fun k => [dq] ++ k ++ [dq]) kws)))
  /\ (case_variant mode (lit "AND") ->
      build_boolean_queries kws mode
      = QStr (join (lit " AND ") (map (fun k => [dq] ++ k ++ [dq]) kws)))
  /\ (forall mode', upper mode = upper mode' ->
      build_boolean_queries kws mode = build_boolean_queries kws mode')
  /\ build_boolean_queries [lit "A"; lit "B"] (lit "OR")
     = QStr [34; 65; 34; 32; 79; 82; 32; 34; 66; 34]
  /\ build_boolean_queries [lit "A"; lit "B"] (lit "or")
     = QStr [34; 65; 34; 32; 79; 82; 32; 34; 66; 34]
  /\ build_boolean_queries [lit "A"; lit "B"] (lit "AND")
     = QStr [34; 65; 34; 32; 65; 78; 68; 32; 34; 66; 34]
  /\ build_boolean_queries [lit "A"; lit "B"] (lit "and")
     = QStr [34; 65; 34; 32; 65; 78; 68; 32; 34; 66; 34].
Proof.
  intros Hne. destruct kws as [|k ks]; [congruence|].
  repeat split; try reflexivity.
  - intros Hv. apply build_or. now apply upper_case_variant.
  - intros Hv. apply build_and. now apply upper_case_variant.
  - intros mode' E. unfold build_boolean_queries. now rewrite E.
Qed.

(** C8. Whatever the mode, an empty keyword list gives the empty string:
    as the value of the function, and as the only value a run returns. *)
Theorem build_boolean_queries_empty (mode : str) :
  build_boolean_queries [] mode = QStr (lit "")
  /\ (forall q, build_returns [] mode q -> q = QStr (lit ""))
  /\ build_boolean_queries [] (lit "OR") = QStr [].
Proof.
  repeat split. intros q H.
  apply (build_returns_functional [] mode); [exact H | now apply ret_empty].
Qed.

(** C9. Two runs of the composer on the same keyword list and the same mode
    return the same value, which is the value of [build_boolean_queries]. *)
Theorem build_boolean_queries_deterministic
    (kws kws' : list str) (mode mode' : str) (q q' : query) :
  kws = kws' -> mode = mode' ->
  build_returns kws mode q -> build_returns kws' mode' q' ->
  q = q' /\ q = build_boolean_queries kws mode.
Proof.
  intros <- <- H H'. split.
  - exact (build_returns_functional _ _ _ _ H H').
  - exact (build_returns_functional _ _ _ _ H (build_returns_total _ _)).
Qed.

(** C10. A single keyword in [COMBO] mode (any mix of cases) gives the
    empty list, which is not the empty string of an empty input. *)
Theorem build_boolean_queries_combo_single (k : str) (mode : str) :
  case_variant mode (lit "COMBO") ->
  build_boolean_queries [k] mode = QList []
  /\ build_boolean_queries [k] mode <> build_boolean_queries [] mode.
Proof.
  intros Hv.
  assert (E : build_boolean_queries [k] mode = QList []).
  { rewrite build_combo; [reflexivity | now apply upper_case_variant]. }
  split; [exact E | rewrite E; discriminate].
Qed.

(** C1, as the code behaves. In [COMBO] mode the pairs come in the order of
    [itertools.combinations], n(n-1)/2 of them, and each pair is joined by
    [" AND "] with no quotes around the keywords: for [A], [B], [C] the code
    returns [A AND B], [A AND C], [B AND C], not the quoted strings. *)
Theorem build_boolean_queries_combo_unquoted :
  build_boolean_queries [lit "A"; lit "B"; lit "C"] (lit "COMBO")
  = QList [lit "A AND B"; lit "A AND C"; lit "B AND C"]
  /\ build_boolean_queries [lit "A"; lit "B"; lit "C"] (lit "COMBO")
     <> QList [ quoted (lit "A") ++ lit " AND " ++ quoted (lit "B");
                quoted (lit "A") ++ lit " AND " ++ quoted (lit "C");
                quoted (lit "B") ++ lit " AND " ++ quoted (lit "C") ]
  /\ (forall (k : str) (ks : list str) (mode : str),
      upper mode = lit "COMBO" ->
      exists l,
        build_boolean_queries (k :: ks) mode = QList l
        /\ l = map (fun c => fst c ++ lit " AND " ++ snd c) (combinations2 (k :: ks))
        /\ (2 * length l = length (k :: ks) * (length (k :: ks) - 1))%nat).
Proof.
  split; [reflexivity|]. split; [discriminate|].
  intros k ks mode E. eexists. split; [now apply build_combo|].
  split; [reflexivity|]. rewrite length_map. apply combinations2_length.
Qed.

(** X5. In [COMBO] mode the result has one string [a AND b] for every two
    positions of the keyword list, [a] standing before [b], and no other. *)
Theorem build_boolean_queries_combo_pairs (k : str) (ks : list str) (mode : str) :
  upper mode = lit "COMBO" ->
  exists l,
    build_boolean_queries (k :: ks) mode = QList l
    /\ (forall q, In q l <->
        exists l1 a l2 b l3,
          k :: ks = l1 ++ a :: l2 ++ b :: l3 /\ q = a ++ lit " AND " ++ b)
    /\ (2 * length l = length (k :: ks) * (length (k :: ks) - 1))%nat.
Proof.
  intros E. eexists. split; [now apply build_combo|]. split.
  - intros q. rewrite in_map_iff. split.
    + intros ([a b] & <- & Hin). apply combinations2_In in Hin as (l1 & l2 & l3 & Hl).
      now exists l1, a, l2, b, l3.
    + intros (l1 & a & l2 & b & l3 & Hl & ->). exists (a, b).
      split; [reflexivity|]. apply combinations2_In. now exists l1, l2, l3.
  - rewrite length_map. apply combinations2_length.
Qed.

End ComposerFacts.

Lemma build_boolean_queries_combo_pairs_witness :
  exists l,
    build_boolean_queries (U := ascii_db) [lit "A"; lit "B"; lit "C"] (lit "combo")
    = QList l
    /\ (forall q, In q l <->
        exists l1 a l2 b l3,
          [lit "A"; lit "B"; lit "C"] = l1 ++ a :: l2 ++ b :: l3
          /\ q = a ++ lit " AND " ++ b)
    /\ (2 * length l = 3 * 2)%nat.
Proof.
  apply (@build_boolean_queries_combo_pairs ascii_db (lit "A") [lit "B"; lit "C"]).
  reflexivity.
Defined.

Lemma build_boolean_queries_or_and_witness :
  build_boolean_queries (U := ascii_db) [lit "A"; lit "B"] (lit "oR")
  = QStr [34; 65; 34; 32; 79; 82; 32; 34; 66; 34]
  /\ build_boolean_queries (U := ascii_db) [lit "A"; lit "B"] (lit "And")
     = QStr [34; 65; 34; 32; 65; 78; 68; 32; 34; 66; 34].
Proof.
  assert (Hne : [lit "A"; lit "B"] <> []) by discriminate.
  split.
  - destruct (@build_boolean_queries_or_and ascii_db _ (lit "oR") Hne)
      as (Hor & _).
    apply Hor. case_variant_tac.
  - destruct (@build_boolean_queries_or_and ascii_db _ (lit "And") Hne)
      as (_ & Hand & _).
    apply Hand. case_variant_tac.
Defined.

Lemma build_boolean_queries_deterministic_witness :
  QStr (quoted (lit "A")) = QStr (quoted (lit "A"))
  /\ QStr (quoted (lit "A"))
     = build_boolean_queries (U := ascii_db) [lit "A"] (lit "or").
Proof.
  apply (@build_boolean_queries_deterministic ascii_db
           [lit "A"] [lit "A"] (lit "or") (lit "or")).
  - reflexivity.
  - reflexivity.
  - apply (@ret_or ascii_db); [discriminate | reflexivity].
  - apply (@ret_or ascii_db); [discriminate | reflexivity].
Defined.

Lemma build_boolean_queries_combo_single_witness :
  build_boolean_queries (U := ascii_db) [lit "India"] (lit "Combo") = QList []
  /\ build_boolean_queries (U := ascii_db) [lit "India"] (lit "Combo")
     <> build_boolean_queries (U := ascii_db) [] (lit "Combo").
Proof.
  apply (@build_boolean_queries_combo_single ascii_db).
  case_variant_tac.
Defined.

(** ** The script classifier *)

Lemma in_range_spec (lo hi c : codepoint) :
  in_range lo hi c = true <-> lo <= c <= hi.
Proof.
  unfold in_range. rewrite andb_true_iff, !N.leb_le. reflexivity.
Qed.

Lemma in_indic_block_spec (c : codepoint) :
  in_indic_block c = true <->
  (0x0900 <= c <= 0x097F      (* Devanagari *)
   \/ 0x0B80 <= c <= 0x0BFF   (* Tamil *)
   \/ 0x0C00 <= c <= 0x0C7F   (* Telugu *)
   \/ 0x0C80 <= c <= 0x0CFF   (* Kannada *)
   \/ 0x0D00 <= c <= 0x0D7F   (* Malayalam *)
   \/ 0x0A80 <= c <= 0x0AFF   (* Gujarati *)
   \/ 0x0A00 <= c <= 0x0A7F   (* Gurmukhi *)
   \/ 0x0980 <= c <= 0x09FF   (* Bengali, Assamese *)
   \/ 0x0B00 <= c <= 0x0B7F). (* Odia *)
Proof.
  unfold in_indic_block, indian_script_patterns. cbn [existsb fst snd].
  rewrite !orb_true_iff, !in_range_spec. intuition discriminate.
Qed.

Section ClassifierFacts.
Context {U : UnicodeDB}.

Lemma search_patterns_existsb (ps : list (codepoint * codepoint)) (s : str) :
  existsb (fun pattern => search_range pattern s) ps
  = existsb (fun c => existsb (fun pattern => in_range (fst pattern) (snd pattern) c) ps) s.
Proof.
  induction ps as [|p ps IH]; simpl.
  - induction s; simpl; congruence.
  - rewrite IH. unfold search_range. clear IH.
    induction s as [|c s IHs]; simpl; [reflexivity|].
    rewrite <- IHs.
    destruct (in_range (fst p) (snd p) c), (existsb (in_range (fst p) (snd p)) s);
      simpl; try reflexivity; now rewrite ?orb_true_r.
Qed.

Lemma is_ascii_eq (s : str) :
  is_ascii s
  = negb (existsb in_indic_block s)
    && forallb (fun c => c <? 128) (filter isalpha s).
Proof.
  unfold is_ascii. rewrite search_patterns_existsb.
  fold in_indic_block.
  change (existsb (fun c => in_indic_block c) s) with (existsb in_indic_block s).
  destruct (existsb in_indic_block s); reflexivity.
Qed.

Lemma is_ascii_indic (s : str) (c : codepoint) :
  In c s -> in_indic_block c = true -> is_ascii s = false.
Proof.
  intros Hin Hc. rewrite is_ascii_eq.
  replace (existsb in_indic_block s) with true; [reflexivity|].
  symmetry. apply existsb_exists. now exists c.
Qed.

Lemma is_ascii_otherwise (s : str) :
  (forall c, In c s -> in_indic_block c = false) ->
  (is_ascii s = true <-> forall c, In c s -> isalpha c = true -> c < 128).
Proof.
  intros Hno. rewrite is_ascii_eq.
  replace (existsb in_indic_block s) with false.
  - simpl. rewrite forallb_forall. split.
    + intros H c Hin Ha. apply N.ltb_lt, H, filter_In. now split.
    + intros H c Hin. apply filter_In in Hin as [Hin Ha].
      apply N.ltb_lt. now apply H.
  - symmetry. apply not_true_is_false. intros H.
    apply existsb_exists in H as (c & Hin & Hc).
    rewrite (Hno c Hin) in Hc. discriminate.
Qed.

Lemma is_ascii_skip (s1 s2 : str) (c : codepoint) :
  isalpha c = false -> in_indic_block c = false ->
  is_ascii (s1 ++ c :: s2) = is_ascii (s1 ++ s2).
Proof.
  intros Ha Hc. rewrite !is_ascii_eq, !existsb_app, !filter_app.
  simpl. now rewrite Ha, Hc.
Qed.

(** C5. A text with a character in one of the nine blocks is classified
    Indic. A text with none is classified ASCII-compatible exactly when
    each of its alphabetic characters is below 128. A non-alphabetic
    character changes nothing, wherever it stands, unless it is itself a
    character of the nine blocks (which makes the text Indic, as said
    first): the answer depends on the text only through the presence of a
    character of the nine blocks and through its alphabetic characters. The
    function is total. "Trump tariff" is ASCII-compatible and
    "जीएसटी बदलाव" is Indic. *)
Theorem is_ascii_classifies (text : str) :
  (forall c, In c text ->
     (0x0900 <= c <= 0x097F \/ 0x0B80 <= c <= 0x0BFF \/ 0x0C00 <= c <= 0x0C7F
      \/ 0x0C80 <= c <= 0x0CFF \/ 0x0D00 <= c <= 0x0D7F \/ 0x0A80 <= c <= 0x0AFF
      \/ 0x0A00 <= c <= 0x0A7F \/ 0x0980 <= c <= 0x09FF \/ 0x0B00 <= c <= 0x0B7F) ->
     classify text = INDIC)
  /\ ((forall c, In c text -> in_indic_block c = false) ->
      (classify text = ASCII_COMPATIBLE <->
       forall c, In c text -> isalpha c = true -> c < 128))
  /\ (forall s1 c s2,
      text = s1 ++ c :: s2 ->
      isalpha c = false -> in_indic_block c = false ->
      classify text = classify (s1 ++ s2))
  /\ (forall other,
      existsb in_indic_block text = existsb in_indic_block other ->
      filter isalpha text = filter isalpha other ->
      classify text = classify other)
  /\ (classify text = INDIC \/ classify text = ASCII_COMPATIBLE)
  /\ classify (lit "Trump tariff") = ASCII_COMPATIBLE
  /\ classify gst_badlav = INDIC.
Proof.
  unfold classify. split; [|split; [|split; [|split; [|split; [|split]]]]].
  - intros c Hin Hc. apply in_indic_block_spec in Hc.
    now rewrite (is_ascii_indic text c Hin Hc).
  - intros Hno. rewrite <- (is_ascii_otherwise text Hno).
    destruct (is_ascii text); split; congruence.
  - intros s1 c s2 -> Ha Hc. now rewrite is_ascii_skip.
  - intros other Hb Ha. now rewrite !is_ascii_eq, Hb, Ha.
  - destruct (is_ascii text); [now right | now left].
  - reflexivity.
  - reflexivity.
Qed.

End ClassifierFacts.

Lemma is_ascii_classifies_witness :
  classify (U := ascii_db) (lit "GST 2.0!") = ASCII_COMPATIBLE
  /\ classify (U := ascii_db) (lit "GST 2.0!")
     = classify (U := ascii_db) (lit "GST 2.0")
  /\ classify (U := ascii_db) (lit "GST " ++ [0x0967]) = INDIC.
Proof.
  destruct (@is_ascii_classifies ascii_db (lit "GST 2.0!"))
    as (_ & Hoth & Hskip & _ & _).
  destruct (@is_ascii_classifies ascii_db (lit "GST " ++ [0x0967]))
    as (Hind & _).
  assert (Hno : forall c, In c (lit "GST 2.0!") -> in_indic_block c = false).
  { intros c Hin. simpl in Hin.
    repeat (destruct Hin as [<- | Hin]; [reflexivity|]). destruct Hin. }
  split; [|split].
  - apply (Hoth Hno). intros c Hin _. simpl in Hin.
    repeat (destruct Hin as [<- | Hin]; [reflexivity|]). destruct Hin.
  - apply (Hskip (lit "GST 2.0") 33 []); reflexivity.
  - apply (Hind 0x0967); [simpl; tauto | left; split; discriminate].
Defined.

(** ** The keyword source adapter *)

Lemma filter_filter {A : Type} (p q : A -> bool) (l : list A) :
  filter p (filter q l) = filter (fun y => q y && p y) l.
Proof.
  induction l as [|a l IH]; simpl; [reflexivity|].
  destruct (q a); simpl; [destruct (p a)|]; now rewrite IH.
Qed.

Lemma existsb_str_eqb_In (k : str) (keys : list str) :
  existsb (str_eqb k) keys = true <-> In k keys.
Proof.
  rewrite existsb_exists. split.
  - intros (y & Hin & E). apply str_eqb_eq in E. now subst.
  - intros Hin. exists k. split; [exact Hin | apply str_eqb_refl].
Qed.

Lemma fromkeys_fold (l keys : list str) :
  fold_left (fun keys k => if existsb (str_eqb k) keys then keys else keys ++ [k])
            l keys
  = keys ++ filter (fun y => negb (existsb (str_eqb y) keys)) (dedup_first l).
Proof.
  revert keys. induction l as [|x t IH]; intros keys; simpl.
  - now rewrite app_nil_r.
  - destruct (existsb (str_eqb x) keys) eqn:Ex; simpl; rewrite IH.
    + f_equal. rewrite filter_filter. apply filter_ext. intros y.
      destruct (str_eqb y x) eqn:Eyx; simpl; [|reflexivity].
      apply str_eqb_eq in Eyx. subst y. now rewrite Ex.
    + rewrite <- app_assoc. simpl. f_equal. f_equal.
      rewrite filter_filter. apply filter_ext. intros y.
      rewrite existsb_app. simpl. rewrite orb_false_r, negb_orb.
      apply andb_comm.
Qed.

Lemma fromkeys_dedup_first (l : list str) : fromkeys l = dedup_first l.
Proof.
  unfold fromkeys. rewrite fromkeys_fold. simpl.
  induction (dedup_first l) as [|a d IH]; simpl; congruence.
Qed.

Lemma dedup_first_In (l : list str) (k : str) :
  In k (dedup_first l) <-> In k l.
Proof.
  induction l as [|x t IH]; simpl; [reflexivity|].
  rewrite filter_In, IH. split.
  - intros [E | [Hin _]]; auto.
  - intros [E | Hin]; [now left|].
    destruct (str_eqb k x) eqn:E.
    + left. apply str_eqb_eq in E. now subst.
    + right. now split.
Qed.

Lemma NoDup_filter {A : Type} (p : A -> bool) (l : list A) :
  NoDup l -> NoDup (filter p l).
Proof.
  induction 1 as [|a l Hn Hd IH]; simpl; [constructor|].
  destruct (p a); [constructor|]; auto.
  intros Hin. apply filter_In in Hin. tauto.
Qed.

Lemma dedup_first_NoDup (l : list str) : NoDup (dedup_first l).
Proof.
  induction l as [|x t IH]; simpl; constructor.
  - intros Hin. apply filter_In in Hin as [_ E].
    now rewrite str_eqb_refl in E.
  - now apply NoDup_filter.
Qed.

Lemma last_cons_default {A : Type} (x d : A) (l : list A) :
  last (x :: l) d = last l x.
Proof.
  revert x d. induction l as [|y l IH]; intros x d; [reflexivity|].
  change (last (x :: y :: l) d) with (last (y :: l) d).
  now rewrite (IH y d), (IH y x).
Qed.

Section AdapterFacts.
Context {U : UnicodeDB}.


Lemma capital_keyword_char (c : codepoint) :
  in_range 65 90 c = true -> keyword_char c = true.
Proof.
  intros H. unfold keyword_char. rewrite H. now rewrite orb_true_r.
Qed.

Lemma match_tail_spec (t : str) (n : nat) :
  match_tail t = Some n ->
  (0 < n <= length t)%nat
  /\ forallb keyword_char (firstn n t) = true
  /\ forall d, boundary (Some (last (firstn n t) d)) (hd_error (skipn n t)) = true.
Proof.
  revert n. induction t as [|c t IH]; intros n; simpl; [discriminate|].
  destruct (keyword_char c) eqn:Ec; [|discriminate].
  destruct (match_tail t) as [n'|] eqn:Em.
  - intros E; injection E as <-.
    destruct (IH n' eq_refl) as (Hn & Hall & Hb).
    split; [lia|]. split.
    + simpl. now rewrite Ec.
    + intros d. rewrite firstn_cons, last_cons_default. apply Hb.
  - destruct (boundary (Some c) (hd_error t)) eqn:Eb; [|discriminate].
    intros E; injection E as <-.
    split; [simpl; lia|]. split.
    + simpl. now rewrite Ec.
    + intros d. exact Eb.
Qed.

Lemma findall_from_sound (s : str) (skip : nat) (prev : option codepoint) (m : str) :
  In m (findall_from skip prev s) ->
  exists pre post,
    s = pre ++ m ++ post
    /\ (skip <= length pre)%nat
    /\ capitalised m
    /\ boundary (last (map Some pre) prev) (hd_error m) = true
    /\ boundary (Some (last m 0)) (hd_error post) = true.
Proof.
  revert skip prev. induction s as [|c t IH]; intros skip prev; simpl; [tauto|].
  assert (Hrec : forall k, In m (findall_from k (Some c) t) ->
            exists pre post,
              c :: t = pre ++ m ++ post
              /\ (S k <= length pre)%nat
              /\ capitalised m
              /\ boundary (last (map Some pre) prev) (hd_error m) = true
              /\ boundary (Some (last m 0)) (hd_error post) = true).
  { intros k Hin. destruct (IH k (Some c) Hin) as (pre & post & E & Hk & Hc & Hb & He).
    exists (c :: pre), post. rewrite E. simpl map. rewrite last_cons_default.
    repeat split; simpl; auto; lia. }
  destruct skip as [|k].
  - destruct (in_range 65 90 c && boundary prev (Some c)) eqn:Ec.
    + apply andb_true_iff in Ec as [Hcap Hb].
      destruct (match_tail t) as [n|] eqn:Em.
      * destruct (match_tail_spec t n Em) as (Hn & Hall & He).
        intros [<- | Hin].
        -- exists [], (skipn n t).
           rewrite app_nil_l, <- app_comm_cons, firstn_skipn.
           split; [reflexivity|]. split; [simpl; lia|]. split.
           ++ exists c, (firstn n t). repeat split; auto.
              destruct t; simpl in *; [lia|]. destruct n; [lia | discriminate].
           ++ split; [exact Hb|].
              rewrite last_cons_default. apply He.
        -- destruct (Hrec n Hin) as (pre & post & E & Hp & H).
           exists pre, post. split; [exact E|]. split; [lia | exact H].
      * intros Hin. destruct (Hrec 0%nat Hin) as (pre & post & E & Hp & H).
        exists pre, post. split; [exact E|]. split; [lia | exact H].
    + intros Hin. destruct (Hrec 0%nat Hin) as (pre & post & E & Hp & H).
      exists pre, post. split; [exact E|]. split; [lia | exact H].
  - intros Hin. exact (Hrec k Hin).
Qed.




End AdapterFacts.

Section AdapterTheorems.
Context {U : UnicodeDB}.

Lemma fetch_body_eq (w : services) (topic api_url : str) :
  fetch_body w topic api_url
  = (response <- lookup_response w topic api_url ;;
     if (status_code response =? 404)%Z then Returns ([], [])
     else
       _ <- raise_for_status response ;;
       data <- response_json response ;;
       news_content <- dict_get data (lit "news") (JStr []) ;;
       if negb (truthy news_content) then Returns ([], [])
       else
         found <- re_findall news_content ;;
         Returns (fromkeys (fst found), snd found)).
Proof.
  unfold fetch_body, lookup_response. now destruct (quote topic).
Qed.

Lemma fetch_total (w : services) (topic api_url : str) :
  exists kws content,
    fetch_keywords_from_api w topic api_url = Returns (kws, content).
Proof.
  unfold fetch_keywords_from_api, try_except.
  destruct (fetch_body w topic api_url) as [[kws content]|e]; eauto.
Qed.

Lemma fetch_unavailable (w : services) (topic api_url : str) :
  lookup_unavailable w topic api_url ->
  fetch_keywords_from_api w topic api_url = Returns ([], []).
Proof.
  unfold fetch_keywords_from_api. rewrite fetch_body_eq.
  intros [e E | resp E Hs | resp E Hs | resp E Hb | resp data E Hb Hd
         | resp m E Hb Ht | resp m v E Hb Hv Hs]; rewrite E; simpl;
    try reflexivity;
    destruct (status_code resp =? 404)%Z eqn:E4; try reflexivity.
  - apply Z.eqb_neq in E4. congruence.
  - unfold raise_for_status.
    replace ((400 <=? status_code resp) && (status_code resp <? 600))%Z with true;
      [reflexivity|].
    symmetry. apply andb_true_iff. split; [apply Z.leb_le | apply Z.ltb_lt]; lia.
  - unfold raise_for_status, response_json. rewrite Hb.
    now destruct ((400 <=? status_code resp) && (status_code resp <? 600))%Z.
  - unfold raise_for_status, response_json. rewrite Hb.
    destruct ((400 <=? status_code resp) && (status_code resp <? 600))%Z;
      [reflexivity|].
    destruct data; try reflexivity. now destruct (Hd members).
  - unfold raise_for_status, response_json. rewrite Hb.
    destruct ((400 <=? status_code resp) && (status_code resp <? 600))%Z;
      [reflexivity|].
    simpl. change (JStr []) with (JStr (lit "")). now rewrite Ht.
  - unfold raise_for_status, response_json. rewrite Hb.
    destruct ((400 <=? status_code resp) && (status_code resp <? 600))%Z;
      [reflexivity|].
    simpl. rewrite Hv. destruct (truthy v); [|reflexivity].
    destruct v; try reflexivity. now destruct (Hs s).
Qed.

Lemma fetch_content (w : services) (topic api_url : str)
    (resp : response) (m : list (str * json)) (content : str) :
  lookup_response w topic api_url = Returns resp ->
  status_code resp <> 404%Z ->
  ~ (400 <= status_code resp < 600)%Z ->
  body resp = Some (JObj m) ->
  members_get m (lit "news") = Some (JStr content) ->
  content <> [] ->
  fetch_keywords_from_api w topic api_url
  = Returns (fromkeys (findall_keywords content), content).
Proof.
  intros E H4 Hs Hb Hn Hc.
  unfold fetch_keywords_from_api. rewrite fetch_body_eq, E. simpl.
  apply Z.eqb_neq in H4. rewrite H4.
  unfold raise_for_status, response_json.
  replace ((400 <=? status_code resp) && (status_code resp <? 600))%Z with false.
  - rewrite Hb. simpl. rewrite Hn. destruct content; [congruence | reflexivity].
  - symmetry. apply andb_false_iff.
    destruct (Z_lt_le_dec (status_code resp) 400);
      [left; apply Z.leb_gt | right; apply Z.ltb_ge]; lia.
Qed.

(** C3. The adapter returns for every topic and every behaviour of the
    lookup service, and never raises. When the request fails (transport
    failure, timeout), the status is 404 or another error, the body is
    malformed, or the content is missing, empty or not text, it returns the
    empty list and the empty string. *)
Theorem fetch_keywords_never_raises (w : services) (topic api_url : str) :
  (exists kws content,
     fetch_keywords_from_api w topic api_url = Returns (kws, content))
  /\ (forall e, fetch_keywords_from_api w topic api_url <> Raises e)
  /\ (lookup_unavailable w topic api_url ->
      fetch_keywords_from_api w topic api_url = Returns ([], lit "")).
Proof.
  split; [apply fetch_total|]. split.
  - intros e. destruct (fetch_total w topic api_url) as (k & c & ->). discriminate.
  - apply fetch_unavailable.
Qed.


End AdapterTheorems.

Lemma fetch_keywords_never_raises_witness :
  fetch_keywords_from_api (U := ascii_db) (unreachable (lit ""))
    (lit "Trump tariff") default_api_url = Returns ([], lit "")
  /\ fetch_keywords_from_api (U := ascii_db) (answering 404 None (lit ""))
       (lit "Trump tariff") default_api_url = Returns ([], lit "")
  /\ fetch_keywords_from_api (U := ascii_db)
       (answering 200 (Some (JObj [(lit "status", JStr (lit "ok"))])) (lit ""))
       (lit "Trump tariff") default_api_url = Returns ([], lit "").
Proof.
  split; [|split].
  - apply (@fetch_keywords_never_raises ascii_db).
    apply (lu_failure _ _ _ ConnectionError). reflexivity.
  - apply (@fetch_keywords_never_raises ascii_db).
    eapply lu_not_found; reflexivity.
  - apply (@fetch_keywords_never_raises ascii_db).
    eapply lu_no_content; reflexivity.
Defined.


(** ** The parser of the expansion engine *)

Lemma lstrip_suffix (p : codepoint -> bool) (s : str) :
  exists a, s = a ++ lstrip p s.
Proof.
  induction s as [|c s (a & IH)]; [now exists []|]. simpl.
  destruct (p c); [|now exists []].
  exists (c :: a). simpl. now f_equal.
Qed.

Lemma strip_infix (p : codepoint -> bool) (s : str) :
  exists a b, s = a ++ strip p s ++ b.
Proof.
  unfold strip, rstrip.
  destruct (lstrip_suffix p s) as (a & Ea).
  destruct (lstrip_suffix p (rev (lstrip p s))) as (b & Eb).
  exists a, (rev b). rewrite <- rev_app_distr, <- Eb, rev_involutive. exact Ea.
Qed.

Lemma no_annotation_infix (open close : codepoint) (s a k b : str) :
  no_annotation open close s -> s = a ++ k ++ b -> no_annotation open close k.
Proof.
  intros Hs -> x y ->. intros Hin.
  apply (Hs (a ++ x) (y ++ b)).
  - now rewrite <- !app_assoc.
  - apply in_or_app. now left.
Qed.

Lemma In_infix (c : codepoint) (s a k b : str) :
  s = a ++ k ++ b -> In c k -> In c s.
Proof. intros -> H. apply in_or_app. right. apply in_or_app. now left. Qed.

Lemma find_close_none (close : codepoint) (t : str) :
  ~ In nl t -> find_close close t = None -> ~ In close t.
Proof.
  induction t as [|c t IH]; simpl; [tauto|]. intros Hnl.
  destruct (c =? close) eqn:Ec; [discriminate|].
  destruct (c =? nl) eqn:En.
  { apply N.eqb_eq in En. tauto. }
  destruct (find_close close t) eqn:Ef; [discriminate|]. intros _ [E | Hin].
  - apply N.eqb_neq in Ec. congruence.
  - apply IH; tauto.
Qed.

Lemma sub_annotations_from_In (s : str) (skip : nat) (x : codepoint) :
  In x (sub_annotations_from skip s) -> In x s.
Proof.
  revert skip. induction s as [|c t IH]; intros skip; simpl; [tauto|].
  destruct skip as [|k]; [|eauto].
  destruct (if c =? 40 then find_close 41 t
            else if c =? 91 then find_close 93 t else None);
    [eauto|]. simpl. intros [E | H]; eauto.
Qed.

Lemma sub_annotations_from_free (s : str) (skip : nat) :
  ~ In nl s ->
  no_annotation 40 41 (sub_annotations_from skip s)
  /\ no_annotation 91 93 (sub_annotations_from skip s).
Proof.
  revert skip. induction s as [|c t IH]; intros skip Hnl.
  - split; intros [|? ?] ? E; discriminate.
  - assert (Hnl' : ~ In nl t) by (simpl in Hnl; tauto).
    simpl. destruct skip as [|k]; [|now apply IH].
    destruct (if c =? 40 then find_close 41 t
              else if c =? 91 then find_close 93 t else None) eqn:Em;
      [now apply IH|].
    destruct (IH 0%nat Hnl') as [H1 H2].
    split; intros [|a0 a] b E; injection E as E1 E2.
    + subst c. simpl in Em. rewrite <- E2. intros Hin.
      apply sub_annotations_from_In in Hin.
      now apply (find_close_none 41 t Hnl' Em).
    + now apply (H1 a b).
    + subst c. simpl in Em. rewrite <- E2. intros Hin.
      apply sub_annotations_from_In in Hin.
      now apply (find_close_none 93 t Hnl' Em).
    + now apply (H2 a b).
Qed.

Lemma split_on_no_sep (d : codepoint) (s line : str) :
  In line (split_on d s) -> ~ In d line.
Proof.
  revert line. induction s as [|c s IH]; intros line; simpl.
  - intros [<- | []]. tauto.
  - destruct (c =? d) eqn:Ec.
    + intros [<- | H]; [tauto | now apply IH].
    + apply N.eqb_neq in Ec.
      destruct (split_on d s) as [|l ls]; simpl.
      * intros [<- | []]. simpl. intros [E | []]. congruence.
      * intros [<- | H].
        -- simpl. intros [E | H]; [congruence|]. apply (IH l); simpl; auto.
        -- apply IH. simpl. auto.
Qed.

Lemma lstrip_head (p : codepoint -> bool) (s : str) (c : codepoint) (t : str) :
  lstrip p s = c :: t -> p c = false.
Proof.
  induction s as [|x s IH]; simpl; [discriminate|].
  destruct (p x) eqn:Ex; [exact IH|]. intros E; injection E as <- _. exact Ex.
Qed.

Lemma rstrip_last (p : codepoint -> bool) (s t : str) (c : codepoint) :
  rstrip p s = t ++ [c] -> p c = false.
Proof.
  unfold rstrip. intros E.
  apply (f_equal (@rev codepoint)) in E.
  rewrite rev_involutive, rev_app_distr in E. simpl in E.
  exact (lstrip_head p _ _ _ E).
Qed.

Lemma rstrip_prefix (p : codepoint -> bool) (s : str) :
  exists b, s = rstrip p s ++ b.
Proof.
  unfold rstrip. destruct (lstrip_suffix p (rev s)) as (a & E).
  exists (rev a). rewrite <- rev_app_distr, <- E. now rewrite rev_involutive.
Qed.

Lemma strip_ends (p : codepoint -> bool) (s : str) :
  (forall c t, strip p s = c :: t -> p c = false)
  /\ (forall t c, strip p s = t ++ [c] -> p c = false).
Proof.
  unfold strip. split.
  - intros c t E. destruct (rstrip_prefix p (lstrip p s)) as (b & Eb).
    rewrite E in Eb. simpl in Eb. exact (lstrip_head p s c _ Eb).
  - intros t c E. exact (rstrip_last p _ _ _ E).
Qed.


Lemma lstrip_nil (p : codepoint -> bool) (s : str) :
  lstrip p s = [] <-> forallb p s = true.
Proof.
  induction s as [|c t IH]; simpl; [tauto|].
  destruct (p c); simpl; [exact IH | split; discriminate].
Qed.

Lemma strip_nil (p : codepoint -> bool) (s : str) :
  strip p s = [] <-> forallb p s = true.
Proof.
  split.
  - intros E. apply lstrip_nil.
    destruct (lstrip p s) as [|c t] eqn:El; [reflexivity|].
    pose proof (lstrip_head p s c t El) as Hc.
    unfold strip, rstrip in E. rewrite El in E.
    apply (f_equal (@rev codepoint)) in E. rewrite rev_involutive in E.
    simpl in E. apply lstrip_nil in E.
    rewrite forallb_app in E. apply andb_true_iff in E as [_ E].
    simpl in E. rewrite Hc in E. discriminate.
  - intros H. unfold strip. apply lstrip_nil in H. now rewrite H.
Qed.

Lemma subseq_refl (s : str) : subseq s s.
Proof. induction s; constructor; assumption. Qed.

Lemma subseq_nil_l (s : str) : subseq [] s.
Proof. induction s; constructor; assumption. Qed.

Lemma subseq_trans (a b c : str) : subseq a b -> subseq b c -> subseq a c.
Proof.
  intros Hab Hbc. revert a Hab.
  induction Hbc as [|x b c Hbc IH|x b c Hbc IH]; intros a Hab.
  - exact Hab.
  - inversion Hab as [|y a' b' Ha|y a' b' Ha]; subst.
    + apply subseq_keep. now apply IH.
    + apply subseq_drop. now apply IH.
  - apply subseq_drop. now apply IH.
Qed.

Lemma subseq_infix (a k b : str) : subseq k (a ++ k ++ b).
Proof.
  induction a as [|c a IH]; simpl; [|now apply subseq_drop].
  induction k as [|c k IH]; simpl; [apply subseq_nil_l | now apply subseq_keep].
Qed.

Lemma strip_subseq (p : codepoint -> bool) (s : str) : subseq (strip p s) s.
Proof.
  destruct (strip_infix p s) as (a & b & E).
  rewrite E at 2. apply subseq_infix.
Qed.

Lemma sub_annotations_from_subseq (s : str) (skip : nat) :
  subseq (sub_annotations_from skip s) s.
Proof.
  revert skip. induction s as [|c t IH]; intros skip; simpl; [constructor|].
  destruct skip as [|k]; [|apply subseq_drop, IH].
  destruct (if c =? 40 then find_close 41 t
            else if c =? 91 then find_close 93 t else None);
    [apply subseq_drop | apply subseq_keep]; apply IH.
Qed.

Section ParserFacts.
Context {U : UnicodeDB}.

Lemma sub_enumeration_suffix (line : str) :
  exists a, line = a ++ sub_enumeration line.
Proof.
  unfold sub_enumeration. destruct line as [|c t]; [now exists []|].
  destruct (isdecimal c); [|now exists []].
  destruct (lstrip_suffix isdecimal (c :: t)) as (a & Ea).
  destruct (lstrip_suffix marker_char (lstrip isdecimal (c :: t))) as (b & Eb).
  exists (a ++ b). rewrite <- app_assoc, <- Eb. exact Ea.
Qed.

Lemma clean_line_free (line : str) :
  ~ In nl line ->
  no_annotation 40 41 (clean_line line) /\ no_annotation 91 93 (clean_line line).
Proof.
  intros Hnl. unfold clean_line.
  destruct (sub_enumeration_suffix line) as (a & Ea).
  assert (Hnl' : ~ In nl (sub_enumeration line)).
  { intros H. apply Hnl. rewrite Ea. apply in_or_app. now right. }
  destruct (sub_annotations_from_free (sub_enumeration line) 0 Hnl') as [H1 H2].
  fold (sub_annotations (sub_enumeration line)) in H1, H2.
  set (s0 := sub_annotations (sub_enumeration line)) in *.
  destruct (strip_infix (N.eqb dq) s0) as (a1 & b1 & E1).
  destruct (strip_infix (N.eqb sq) (strip (N.eqb dq) s0)) as (a2 & b2 & E2).
  destruct (strip_infix isspace (strip (N.eqb sq) (strip (N.eqb dq) s0)))
    as (a3 & b3 & E3).
  split.
  - eapply no_annotation_infix; [|exact E3].
    eapply no_annotation_infix; [|exact E2].
    eapply no_annotation_infix; [exact H1 | exact E1].
  - eapply no_annotation_infix; [|exact E3].
    eapply no_annotation_infix; [|exact E2].
    eapply no_annotation_infix; [exact H2 | exact E1].
Qed.

Lemma parse_line_eq (kws : list str) (line : str) :
  parse_line kws line
  = kws ++ (if non_blank line then [clean_line (strip isspace line)] else []).
Proof.
  unfold parse_line, non_blank, clean_line.
  destruct (strip isspace line); [now rewrite app_nil_r | reflexivity].
Qed.

Lemma parse_keywords_fold (lines : list str) (kws : list str) :
  fold_left parse_line lines kws
  = kws ++ map (fun line => clean_line (strip isspace line)) (filter non_blank lines).
Proof.
  revert kws. induction lines as [|l ls IH]; intros kws; simpl.
  - now rewrite app_nil_r.
  - rewrite IH, parse_line_eq, <- app_assoc. now destruct (non_blank l).
Qed.

Lemma non_blank_forallb (line : str) :
  non_blank line = negb (forallb isspace line).
Proof.
  unfold non_blank. destruct (strip isspace line) as [|c t] eqn:E.
  - apply strip_nil in E. now rewrite E.
  - destruct (forallb isspace line) eqn:F; [|reflexivity].
    apply strip_nil in F. congruence.
Qed.

Lemma clean_line_subseq (line : str) : subseq (clean_line line) line.
Proof.
  unfold clean_line.
  apply (subseq_trans _ _ _ (strip_subseq _ _)).
  apply (subseq_trans _ _ _ (strip_subseq _ _)).
  apply (subseq_trans _ _ _ (strip_subseq _ _)).
  apply (subseq_trans _ (sub_enumeration line)).
  - apply sub_annotations_from_subseq.
  - destruct (sub_enumeration_suffix line) as (a & E).
    rewrite E at 2. rewrite <- (app_nil_r (sub_enumeration line)) at 2.
    apply subseq_infix.
Qed.

Lemma parse_keywords_map (result : str) :
  parse_keywords result
  = map (fun line => clean_line (strip isspace line))
        (filter non_blank (split_on nl result)).
Proof. unfold parse_keywords. now rewrite parse_keywords_fold. Qed.

(** X2. The parser gives one entry for each line of the answer that holds
    a character other than white space, in the order of the lines, and
    every entry is its line with some characters deleted: cleaning adds
    nothing and reorders nothing. *)
Theorem parse_keywords_entries (result : str) :
  exists lines,
    lines = filter (fun line => negb (forallb isspace line)) (split_on nl result)
    /\ Forall2 subseq (parse_keywords result) lines
    /\ length (parse_keywords result) = length lines.
Proof.
  eexists. split; [reflexivity|].
  assert (Hf : filter non_blank (split_on nl result)
               = filter (fun line => negb (forallb isspace line))
                        (split_on nl result)).
  { apply filter_ext. intros line. apply non_blank_forallb. }
  rewrite parse_keywords_map, Hf. split; [|apply length_map].
  assert (Hall : forall ls : list str,
             Forall2 subseq
               (map (fun line => clean_line (strip isspace line)) ls) ls).
  { induction ls as [|l ls IH]; simpl; constructor; [|exact IH].
    apply (subseq_trans _ (strip isspace l));
      [apply clean_line_subseq | apply strip_subseq]. }
  apply Hall.
Qed.

(** X1. No entry of the keyword list holds a parenthesised or a bracketed
    annotation: after an opening parenthesis no closing one follows, and
    after an opening bracket no closing one. *)
Theorem parse_keywords_no_annotation (result k : str) :
  In k (parse_keywords result) ->
  no_annotation 40 41 k /\ no_annotation 91 93 k.
Proof.
  rewrite parse_keywords_map.
  intros Hin. apply in_map_iff in Hin as (line & <- & Hin).
  apply filter_In in Hin as [Hin _].
  apply clean_line_free.
  destruct (strip_infix isspace line) as (a & b & E).
  intros H. apply (split_on_no_sep nl result line Hin).
  now apply (In_infix nl line a _ b E).
Qed.

(** X3. No entry of the keyword list begins or ends with white space. *)
Theorem parse_keywords_trimmed (result k : str) :
  In k (parse_keywords result) ->
  (forall c t, k = c :: t -> isspace c = false)
  /\ (forall t c, k = t ++ [c] -> isspace c = false).
Proof.
  rewrite parse_keywords_map.
  intros Hin. apply in_map_iff in Hin as (line & <- & _).
  unfold clean_line. apply strip_ends.
Qed.

End ParserFacts.

Lemma parse_keywords_no_annotation_witness :
  no_annotation 40 41 (lit "#IndiaTrade")
  /\ no_annotation 91 93 (lit "#IndiaTrade").
Proof.
  apply (@parse_keywords_no_annotation ascii_db (lit "1. #IndiaTrade (hashtag)")).
  left. reflexivity.
Defined.

Lemma parse_keywords_trimmed_witness :
  (forall c t, lit "Make in India" = c :: t -> isspace (U := ascii_db) c = false)
  /\ (forall t c, lit "Make in India" = t ++ [c] -> isspace (U := ascii_db) c = false).
Proof.
  apply (@parse_keywords_trimmed ascii_db
           (lit "2)  Make in India [campaign]  " ++ [nl])).
  left. reflexivity.
Defined.

(** ** The expansion engine and the orchestrator *)

Section PipelineFacts.
Context {U : UnicodeDB}.

Lemma build_or_join (refined : list str) :
  build_boolean_queries refined (lit "OR")
  = QStr (join (lit " OR ") (map quoted refined)).
Proof. destruct refined; reflexivity. Qed.

Lemma agent_pipeline_with_eq (out : console)
    (expand : str -> option str -> outcome (list str))
    (w : services) (topic : str) (kws : list str) (news : str) :
  fetch_keywords_from_api w topic default_api_url = Returns (kws, news) ->
  agent_pipeline_with out expand w topic
  = (_ <- print out 0 (initial_report kws news) ;;
     refined <-
       match kws, news with
       | [], [] => expand topic None
       | _, _ => expand topic (Some (or_else (join (lit ", ") kws) news))
       end ;;
     _ <- print out 1 (completion_report topic refined) ;;
     Returns {| keywords := refined;
                boolean_query := join (lit " OR ") (map quoted refined) |}).
Proof.
  intros E. unfold agent_pipeline_with. rewrite E.
  cbn [bind fst snd].
  destruct (print out 0 (initial_report kws news)) as [[]|e]; [|reflexivity].
  assert (Hk : forall m : outcome (list str),
             (refined_keywords <- m ;;
              _ <- print out 1 (completion_report topic refined_keywords) ;;
              make_response refined_keywords
                (build_boolean_queries refined_keywords (lit "OR")))
             = (refined <- m ;;
                _ <- print out 1 (completion_report topic refined) ;;
                Returns {| keywords := refined;
                           boolean_query :=
                             join (lit " OR ") (map quoted refined) |})).
  { intros [r|e]; [|reflexivity]. cbn [bind].
    destruct (print out 1 (completion_report topic r)) as [[]|e]; [|reflexivity].
    cbn [bind]. now rewrite build_or_join. }
  apply Hk.
Qed.

(** The context the orchestrator passes to the expansion engine for a
    result of the lookup. *)
Lemma agent_pipeline_chosen (out : console)
    (expand : str -> option str -> outcome (list str))
    (w : services) (topic : str) (kws : list str) (news : str) :
  fetch_keywords_from_api w topic default_api_url = Returns (kws, news) ->
  agent_pipeline_with out expand w topic
  = (_ <- print out 0 (initial_report kws news) ;;
     refined <- expand topic
                  match kws, news with
                  | [], [] => None
                  | _, _ => Some (or_else (join (lit ", ") kws) news)
                  end ;;
     _ <- print out 1 (completion_report topic refined) ;;
     Returns {| keywords := refined;
                boolean_query := join (lit " OR ") (map quoted refined) |}).
Proof.
  intros E. rewrite (agent_pipeline_with_eq out expand w topic kws news E).
  destruct kws, news; reflexivity.
Qed.

(** C6. With [(kws, news)] the answer of the lookup, the orchestrator calls
    the expansion engine once (after its first report is printed), with a
    context that is absent exactly when [kws] and [news] are both empty;
    otherwise the context is the keywords joined by [", "] when that join
    is not empty, and [news] when it is. A response it returns carries the
    keywords that call returned and their composition in [OR] mode. *)
Theorem agent_pipeline_context (out : console) (w : services) (topic : str)
    (kws : list str) (news : str) :
  fetch_keywords_from_api w topic default_api_url = Returns (kws, news) ->
  exists context : option str,
    (context = None <-> kws = [] /\ news = [])
    /\ (~ (kws = [] /\ news = []) -> join (lit ", ") kws <> [] ->
        context = Some (join (lit ", ") kws))
    /\ (~ (kws = [] /\ news = []) -> join (lit ", ") kws = [] ->
        context = Some news)
    /\ (forall expand,
        agent_pipeline_with out expand w topic
        = (_ <- print out 0 (initial_report kws news) ;;
           refined <- expand topic context ;;
           _ <- print out 1 (completion_report topic refined) ;;
           Returns {| keywords := refined;
                      boolean_query := join (lit " OR ") (map quoted refined) |}))
    /\ agent_pipeline out w topic
       = (_ <- print out 0 (initial_report kws news) ;;
          refined <- expand_keywords_mistral w topic context default_model_url ;;
          _ <- print out 1 (completion_report topic refined) ;;
          Returns {| keywords := refined;
                     boolean_query := join (lit " OR ") (map quoted refined) |})
    /\ (forall r, agent_pipeline out w topic = Returns r ->
        expand_keywords_mistral w topic context default_model_url
        = Returns (keywords r)
        /\ build_boolean_queries (keywords r) (lit "OR") = QStr (boolean_query r)).
Proof.
  intros E.
  exists (match kws, news with
          | [], [] => None
          | _, _ => Some (or_else (join (lit ", ") kws) news)
          end).
  pose proof (fun expand => agent_pipeline_chosen out expand w topic kws news E)
    as Hw.
  split; [|split; [|split; [|split; [|split]]]].
  - destruct kws, news; (split; [intros H | intros [H1 H2]]);
      try discriminate; auto.
  - intros Hne Hj.
    destruct kws as [|k ks]; [destruct news; [tauto | now destruct Hj]|].
    destruct (join (lit ", ") (k :: ks)) eqn:Ej; [congruence|]. reflexivity.
  - intros Hne Hj. rewrite Hj.
    destruct kws as [|k ks]; [destruct news; [tauto | reflexivity]|].
    reflexivity.
  - exact Hw.
  - unfold agent_pipeline. apply Hw.
  - intros r Hr. unfold agent_pipeline in Hr. rewrite Hw in Hr.
    destruct (print out 0 (initial_report kws news)) as [[]|e];
      [cbn [bind] in Hr | discriminate].
    match type of Hr with
    | bind ?m _ = _ => destruct m as [refined|e]; [cbn [bind] in Hr | discriminate]
    end.
    destruct (print out 1 (completion_report topic refined)) as [[]|e];
      [cbn [bind] in Hr | discriminate].
    injection Hr as <-. split; [reflexivity | apply build_or_join].
Qed.

(** X4. The orchestrator fails only when one of its two reports cannot be
    printed or when the expansion engine fails, and then with that
    exception: so it can fail after the expansion has returned, at the
    second report, which shows the topic. With a first report that prints,
    it fails when the model service cannot be reached. A failure of the
    lookup never makes it fail: it then expands the topic with no
    context. *)
Theorem agent_pipeline_failure (out : console) (w : services) (topic : str)
    (e : exn) :
  (agent_pipeline out w topic = Raises e ->
   (exists kws news, print out 0 (initial_report kws news) = Raises e)
   \/ (exists context,
         expand_keywords_mistral w topic context default_model_url = Raises e)
   \/ (exists context refined,
         expand_keywords_mistral w topic context default_model_url
         = Returns refined
         /\ print out 1 (completion_report topic refined) = Raises e))
  /\ ((forall text, print out 0 text = Returns tt) ->
      (forall payload, http_post w default_model_url payload = Raises e) ->
      agent_pipeline out w topic = Raises e)
  /\ (lookup_unavailable w topic default_api_url ->
      agent_pipeline out w topic
      = (_ <- print out 0 (lit "Initial keywords: 0, News content: 0") ;;
         refined <- expand_keywords_mistral w topic None default_model_url ;;
         _ <- print out 1 (completion_report topic refined) ;;
         Returns {| keywords := refined;
                    boolean_query := join (lit " OR ") (map quoted refined) |})).
Proof.
  destruct (fetch_total w topic default_api_url) as (kws & news & E).
  pose proof (agent_pipeline_chosen out
                (fun topic context =>
                   expand_keywords_mistral w topic context default_model_url)
                w topic kws news E) as Hrun.
  fold (agent_pipeline out w topic) in Hrun.
  split; [|split].
  - rewrite Hrun. intros H.
    destruct (print out 0 (initial_report kws news)) as [[]|e0] eqn:E0;
      cbn [bind] in H;
      [|left; exists kws, news; rewrite E0; now injection H as ->].
    right.
    match type of H with
    | bind (expand_keywords_mistral _ _ ?ctx _) _ = _ =>
        destruct (expand_keywords_mistral w topic ctx default_model_url)
          as [refined|e1] eqn:E1; cbn [bind] in H;
        [right; exists ctx, refined
        | left; exists ctx; rewrite E1; now injection H as ->]
    end.
    split; [exact E1|].
    destruct (print out 1 (completion_report topic refined)) as [[]|e2];
      cbn [bind] in H; [discriminate | now injection H as ->].
  - intros Hprint Hpost. rewrite Hrun, Hprint. cbn [bind].
    unfold expand_keywords_mistral. now rewrite Hpost.
  - intros Hun. rewrite (fetch_unavailable w topic default_api_url Hun) in E.
    injection E as <- <-. exact Hrun.
Qed.

(** C2, as the code behaves. The raw line "1. #IndiaTrade (hashtag)" gives
    the token "#IndiaTrade", but the parser tests the raw line, not the
    cleaned one: a line that holds only an annotation or only a marker
    leaves an empty string in the keyword list, also in what the expansion
    engine returns; and a second marker on a line stays. *)
Theorem parse_keywords_keeps_empty_entry :
  parse_keywords (lit "1. #IndiaTrade (hashtag)") = [lit "#IndiaTrade"]
  /\ parse_keywords (lit "(hashtags)" ++ [nl] ++ lit "1. #IndiaTrade (hashtag)")
     = [lit ""; lit "#IndiaTrade"]
  /\ parse_keywords (lit "1.") = [lit ""]
  /\ parse_keywords (lit "1. 2. GST") = [lit "2. GST"]
  /\ expand_keywords_mistral
       (unreachable (lit "(hashtags)" ++ [nl] ++ lit "1. #IndiaTrade (hashtag)"))
       (lit "Trump tariff") None default_model_url
     = Returns [lit ""; lit "#IndiaTrade"].
Proof. repeat split. Qed.

End PipelineFacts.

Lemma agent_pipeline_context_witness :
  agent_pipeline (U := ascii_db) utf8_console
    (answering 404 None (lit "1. #IndiaTrade (hashtag)" ++ [nl] ++ lit "GST"))
    (lit "Trump tariff")
  = Returns {| keywords := [lit "#IndiaTrade"; lit "GST"];
               boolean_query :=
                 quoted (lit "#IndiaTrade") ++ lit " OR " ++ quoted (lit "GST") |}.
Proof.
  destruct (@agent_pipeline_context ascii_db utf8_console
              (answering 404 None (lit "1. #IndiaTrade (hashtag)" ++ [nl] ++ lit "GST"))
              (lit "Trump tariff") [] [] eq_refl)
    as (context & Hnone & _ & _ & _ & Hrun & _).
  rewrite Hrun. rewrite (proj2 Hnone (conj eq_refl eq_refl)). reflexivity.
Defined.

Lemma agent_pipeline_failure_witness :
  agent_pipeline (U := ascii_db) utf8_console model_unreachable (lit "Trump tariff")
  = Raises ConnectionError.
Proof.
  destruct (@agent_pipeline_failure ascii_db utf8_console model_unreachable
              (lit "Trump tariff") ConnectionError) as (_ & _ & Hun).
  rewrite Hun; [reflexivity|].
  eapply lu_not_found; reflexivity.
Defined.

(** * Further properties of the code *)

(** ** The composer: shape of the result *)

Section ComposerShape.
Context {U : UnicodeDB}.

Lemma join_quoted_head (sep k : str) (ks : list str) :
  exists rest, join sep (map quoted (k :: ks)) = dq :: rest.
Proof.
  destruct ks as [|k' ks]; simpl; unfold quoted; simpl; eauto.
Qed.

Lemma join_quoted_nil (sep : str) (kws : list str) :
  join sep (map quoted kws) = [] <-> kws = [].
Proof.
  destruct kws as [|k ks]; [tauto|].
  destruct (join_quoted_head sep k ks) as (rest & ->). split; discriminate.
Qed.

(** X6. The shape of the composer's result follows the keywords and the
    upper-cased mode: a string for an empty list and for the modes [OR] and
    [AND], a list for [COMBO] on a non-empty list, and [None] (no exception,
    no empty string) for any other mode on a non-empty list. A returned
    string is empty only for an empty keyword list, and otherwise begins
    with a double quote. *)
Theorem build_boolean_queries_shape (kws : list str) (mode : str) :
  ((exists s, build_boolean_queries kws mode = QStr s) <->
   kws = [] \/ upper mode = lit "OR" \/ upper mode = lit "AND")
  /\ ((exists l, build_boolean_queries kws mode = QList l) <->
      kws <> [] /\ upper mode = lit "COMBO")
  /\ (build_boolean_queries kws mode = QNone <->
      kws <> [] /\ upper mode <> lit "OR" /\ upper mode <> lit "AND"
      /\ upper mode <> lit "COMBO")
  /\ (forall s, build_boolean_queries kws mode = QStr s ->
      (s = [] <-> kws = [])
      /\ (kws <> [] -> exists rest, s = dq :: rest)).
Proof.
  assert (Hjoin : forall sep k ks s,
             QStr (join sep (map quoted (k :: ks))) = QStr s ->
             (s = [] <-> k :: ks = [])
             /\ (k :: ks <> [] -> exists rest, s = dq :: rest)).
  { intros sep k ks s E. injection E as <-. split.
    - exact (join_quoted_nil sep (k :: ks)).
    - intros _. exact (join_quoted_head sep k ks). }
  destruct kws as [|k ks].
  { simpl. split; [|split; [|split]].
    - split; [tauto | eauto].
    - split; [intros (l & H); discriminate | intros [H _]; congruence].
    - split; [discriminate | intros [H _]; congruence].
    - intros s E. injection E as <-. split; [tauto | congruence]. }
  assert (Hne : k :: ks <> []) by discriminate.
  unfold build_boolean_queries.
  destruct (str_eqb (upper mode) (lit "OR")) eqn:E1.
  { apply str_eqb_eq in E1. rewrite E1. split; [|split; [|split]].
    - split; eauto.
    - split; [intros (l & H); discriminate | intros [_ H]; discriminate].
    - split; [discriminate | intros (_ & H & _); congruence].
    - apply Hjoin. }
  apply str_eqb_neq in E1.
  destruct (str_eqb (upper mode) (lit "AND")) eqn:E2.
  { apply str_eqb_eq in E2. rewrite E2. split; [|split; [|split]].
    - split; eauto.
    - split; [intros (l & H); discriminate | intros [_ H]; discriminate].
    - split; [discriminate | intros (_ & _ & H & _); congruence].
    - apply Hjoin. }
  apply str_eqb_neq in E2.
  destruct (str_eqb (upper mode) (lit "COMBO")) eqn:E3.
  { apply str_eqb_eq in E3. split; [|split; [|split]].
    - split; [intros (s & H); discriminate | intros [H | [H | H]]; congruence].
    - split; eauto.
    - split; [discriminate | intros (_ & _ & _ & H); congruence].
    - discriminate. }
  apply str_eqb_neq in E3. split; [|split; [|split]].
  - split; [intros (s & H); discriminate | intros [H | [H | H]]; congruence].
  - split; [intros (l & H); discriminate | intros [_ H]; congruence].
  - split; auto.
  - discriminate.
Qed.

End ComposerShape.

(** ** The script classifier: composition *)

Section ClassifierComposition.
Context {U : UnicodeDB}.

(** X7. A text is ASCII-compatible exactly when each of its parts is: the
    classifier of a concatenation is the conjunction of the classifiers of
    the parts, so the answer does not depend on the order of the
    characters; the empty text and every text of code points below 128 are
    ASCII-compatible. *)
Theorem is_ascii_app (a b : str) :
  is_ascii (a ++ b) = is_ascii a && is_ascii b
  /\ is_ascii (b ++ a) = is_ascii (a ++ b)
  /\ is_ascii [] = true
  /\ ((forall c, In c a -> c < 128) -> is_ascii a = true).
Proof.
  assert (Happ : forall x y, is_ascii (x ++ y) = is_ascii x && is_ascii y).
  { intros x y. rewrite !is_ascii_eq, existsb_app, filter_app, forallb_app.
    destruct (existsb in_indic_block x), (existsb in_indic_block y); simpl;
      rewrite ?andb_false_r; reflexivity. }
  split; [apply Happ|]. split; [rewrite !Happ; apply andb_comm|].
  split; [reflexivity|].
  intros Hlow. rewrite is_ascii_eq. apply andb_true_iff. split.
  - apply negb_true_iff, not_true_is_false. intros H.
    apply existsb_exists in H as (c & Hin & Hc).
    apply in_indic_block_spec in Hc. specialize (Hlow c Hin). lia.
  - apply forallb_forall. intros c Hin. apply filter_In in Hin as [Hin _].
    apply N.ltb_lt. now apply Hlow.
Qed.

End ClassifierComposition.

(** ** The keyword source adapter: every behaviour of the service *)

Lemma hex_digit_safe (n : N) : n < 16 -> always_safe (hex_digit n) = true.
Proof.
  intros H. unfold hex_digit, always_safe, in_range.
  destruct (n <? 10) eqn:E.
  - apply N.ltb_lt in E.
    replace (48 <=? 48 + n) with true by (symmetry; apply N.leb_le; lia).
    replace (48 + n <=? 57) with true by (symmetry; apply N.leb_le; lia).
    simpl. now rewrite !orb_true_r.
  - apply N.ltb_ge in E.
    replace (65 <=? 55 + n) with true by (symmetry; apply N.leb_le; lia).
    replace (55 + n <=? 90) with true by (symmetry; apply N.leb_le; lia).
    reflexivity.
Qed.

Lemma percent_safe (b : N) : b < 256 -> forallb url_safe (percent b) = true.
Proof.
  intros H. unfold percent. cbn [forallb]. unfold url_safe.
  rewrite (hex_digit_safe (b / 16)), (hex_digit_safe (b mod 16)).
  - reflexivity.
  - apply N.mod_lt. discriminate.
  - apply N.Div0.div_lt_upper_bound. lia.
Qed.

Lemma utf8_bytes (c : codepoint) (bytes : list N) :
  c <= 0x10FFFF -> utf8 c = Returns bytes -> Forall (fun b => b < 256) bytes.
Proof.
  intros Hc E.
  assert (Hall : match utf8 c with
                 | Returns bs => Forall (fun b => b < 256) bs
                 | Raises _ => True
                 end); [|now rewrite E in Hall].
  clear E. unfold utf8.
  assert (Hm : forall x, 128 + x mod 64 < 256).
  { intros x. pose proof (N.mod_lt x 64). lia. }
  assert (Hd : forall k n, c < k * n -> c / k < n).
  { intros k n H. apply N.Div0.div_lt_upper_bound. exact H. }
  destruct (c <? 128) eqn:E1.
  { apply N.ltb_lt in E1. apply Forall_cons; [lia | apply Forall_nil]. }
  destruct (c <? 2048) eqn:E2.
  { apply N.ltb_lt in E2.
    assert (c / 64 < 32) by (apply Hd; lia).
    repeat first [apply Forall_nil | apply Forall_cons];
      [lia | apply Hm]. }
  destruct (in_range 55296 57343 c); [exact I|].
  destruct (c <? 65536) eqn:E3.
  { apply N.ltb_lt in E3.
    assert (c / 4096 < 16) by (apply Hd; lia).
    repeat first [apply Forall_nil | apply Forall_cons];
      [lia | apply Hm | apply Hm]. }
  assert (c / 262144 < 5) by (apply Hd; lia).
  repeat first [apply Forall_nil | apply Forall_cons];
    [lia | apply Hm | apply Hm | apply Hm].
Qed.

Lemma flat_map_percent_safe (bytes : list N) :
  Forall (fun b => b < 256) bytes ->
  forallb url_safe (flat_map percent bytes) = true.
Proof.
  induction 1 as [|b bs Hb _ IH]; [reflexivity|].
  change (flat_map percent (b :: bs)) with (percent b ++ flat_map percent bs).
  now rewrite forallb_app, (percent_safe b Hb), IH.
Qed.

Lemma utf8_raises (c : codepoint) :
  (exists bytes, utf8 c = Returns bytes /\ surrogate c = false)
  \/ (utf8 c = Raises UnicodeEncodeError /\ surrogate c = true).
Proof.
  unfold utf8, surrogate.
  destruct (c <? 128) eqn:E1.
  { apply N.ltb_lt in E1. left. eexists. split; [reflexivity|].
    unfold in_range. apply andb_false_iff. left. apply N.leb_gt. lia. }
  destruct (c <? 2048) eqn:E2.
  { apply N.ltb_lt in E2. left. eexists. split; [reflexivity|].
    unfold in_range. apply andb_false_iff. left. apply N.leb_gt. lia. }
  destruct (in_range 55296 57343 c); [now right|].
  left. destruct (c <? 65536); eexists; split; reflexivity.
Qed.

Lemma always_safe_not_surrogate (c : codepoint) :
  always_safe c = true -> surrogate c = false.
Proof.
  unfold always_safe, surrogate, in_range. intros H.
  apply andb_false_iff. left. apply N.leb_gt.
  repeat (apply orb_true_iff in H as [H | H]);
    try (apply andb_true_iff in H as [_ H]; apply N.leb_le in H; lia);
    apply N.eqb_eq in H; lia.
Qed.

Lemma quote_surrogate (s : str) :
  (exists c, In c s /\ surrogate c = true) ->
  quote s = Raises UnicodeEncodeError.
Proof.
  induction s as [|c t IH]; intros (x & Hin & Hx); [destruct Hin|]. simpl.
  destruct (always_safe c) eqn:Es.
  - destruct Hin as [-> | Hin].
    + apply always_safe_not_surrogate in Es. congruence.
    + rewrite IH; [reflexivity | eauto].
  - destruct (utf8_raises c) as [(bytes & -> & Hc) | [-> _]]; [|reflexivity].
    simpl. destruct Hin as [-> | Hin]; [congruence|].
    rewrite IH; [reflexivity | eauto].
Qed.

Lemma quote_returns (s : str) :
  (forall c, In c s -> c <= 0x10FFFF) ->
  (forall c, In c s -> surrogate c = false) ->
  exists q, quote s = Returns q
            /\ forallb url_safe q = true
            /\ (forallb always_safe s = true -> q = s).
Proof.
  induction s as [|c t IH]; intros Hcp Hsur.
  - exists []. repeat split.
  - destruct IH as (q & Eq & Hq & Hid);
      [intros x Hx; apply Hcp; now right | intros x Hx; apply Hsur; now right|].
    simpl. rewrite Eq. destruct (always_safe c) eqn:Es.
    + exists (c :: q). simpl. split; [reflexivity|]. split.
      * unfold url_safe at 1. now rewrite Es, Hq.
      * intros H. now rewrite Hid.
    + destruct (utf8_raises c) as [(bytes & Eb & _) | [_ Hc]].
      * rewrite Eb. simpl. eexists. split; [reflexivity|]. split; [|discriminate].
        rewrite forallb_app, Hq, andb_true_r.
        apply flat_map_percent_safe.
        exact (utf8_bytes c bytes (Hcp c (or_introl eq_refl)) Eb).
      * rewrite (Hsur c (or_introl eq_refl)) in Hc. discriminate.
Qed.

Lemma join_nonempty (sep : str) (l : list str) :
  l <> [] -> (forall k, In k l -> k <> []) -> join sep l <> [].
Proof.
  destruct l as [|k l]; [congruence|]. intros _ H.
  assert (Hk : k <> []) by (apply H; now left).
  destruct k; [congruence|]. destruct l; discriminate.
Qed.

Section AdapterInvariant.
Context {U : UnicodeDB}.

Lemma fetch_cases (w : services) (topic api_url : str) :
  fetch_keywords_from_api w topic api_url = Returns ([], [])
  \/ exists content,
       content <> []
       /\ fetch_keywords_from_api w topic api_url
          = Returns (dedup_first (findall_keywords content), content).
Proof.
  unfold fetch_keywords_from_api. rewrite fetch_body_eq.
  destruct (lookup_response w topic api_url) as [resp|e]; simpl; [|now left].
  destruct (status_code resp =? 404)%Z; [now left|].
  destruct (raise_for_status resp); simpl; [|now left].
  destruct (response_json resp) as [data|e]; simpl; [|now left].
  destruct (dict_get data (lit "news") (JStr [])) as [v|e]; simpl; [|now left].
  destruct (truthy v) eqn:Ev; simpl; [|now left].
  destruct v; simpl; try now left.
  right. exists s. split; [now destruct s | now rewrite fromkeys_dedup_first].
Qed.

Lemma findall_keywords_shape (content k : str) :
  In k (findall_keywords content) ->
  (2 <= length k)%nat /\ forallb keyword_char k = true
  /\ exists pre post, content = pre ++ k ++ post.
Proof.
  intros Hin.
  destruct (findall_from_sound _ _ _ _ Hin)
    as (pre & post & E & _ & (c & r & -> & Hc & Hr & Hall) & _).
  split; [destruct r; [congruence | simpl; lia]|].
  split; [simpl; now rewrite (capital_keyword_char c Hc) | now exists pre, post].
Qed.

(** X8. Whatever the lookup service does, the adapter's pair is coherent:
    the keywords are those of the returned content, each once; with empty
    content there are none; and every keyword is a piece of the content of
    at least two characters, all of them ASCII letters, digits or
    ampersands. *)
Theorem fetch_keywords_invariant (w : services) (topic api_url : str) :
  exists kws content,
    fetch_keywords_from_api w topic api_url = Returns (kws, content)
    /\ kws = dedup_first (findall_keywords content)
    /\ NoDup kws
    /\ (content = [] -> kws = [])
    /\ (forall k, In k kws ->
        (2 <= length k)%nat
        /\ forallb keyword_char k = true
        /\ exists pre post, content = pre ++ k ++ post).
Proof.
  destruct (fetch_cases w topic api_url) as [E | (content & Hc & E)].
  - exists [], []. rewrite E.
    split; [reflexivity|]. split; [reflexivity|].
    split; [apply NoDup_nil|]. split; [reflexivity|]. intros k [].
  - exists (dedup_first (findall_keywords content)), content. rewrite E.
    split; [reflexivity|]. split; [reflexivity|].
    split; [apply dedup_first_NoDup|]. split; [congruence|].
    intros k Hin. apply findall_keywords_shape. now apply dedup_first_In.
Qed.

(** X9. The adapter asks the lookup service one thing only: for a topic
    without surrogates there is a text [q] of safe ASCII characters and
    percent escapes (no ampersand, equals sign, question mark, hash or
    blank; the topic itself when the topic has only safe characters) such
    that the adapter's answer depends on the service only through what it
    answers at the address followed by [?keyword=] and [q], and the
    content the service gives there is the content the adapter returns. A
    topic with a surrogate cannot be encoded: the adapter then answers the
    empty pair whatever the service is. *)
Theorem fetch_topic_encoding (topic : str) :
  (forall c, In c topic -> c <= 0x10FFFF) ->
  ((forall c, In c topic -> surrogate c = false) ->
   exists q,
     quote topic = Returns q
     /\ (forall c, In c q ->
         c < 128 /\ c <> 38 /\ c <> 61 /\ c <> 63 /\ c <> 35 /\ c <> 32)
     /\ (forallb always_safe topic = true -> q = topic)
     /\ (forall w w' api_url,
         http_get w (api_url ++ lit "?keyword=" ++ q)
         = http_get w' (api_url ++ lit "?keyword=" ++ q) ->
         fetch_keywords_from_api w topic api_url
         = fetch_keywords_from_api w' topic api_url)
     /\ (forall w api_url status content,
         http_get w (api_url ++ lit "?keyword=" ++ q)
         = Returns {| status_code := status;
                      body := Some (JObj [(lit "news", JStr content)]) |} ->
         (status < 400)%Z -> content <> [] ->
         fetch_keywords_from_api w topic api_url
         = Returns (dedup_first (findall_keywords content), content)))
  /\ ((exists c, In c topic /\ surrogate c = true) ->
      forall w api_url,
        fetch_keywords_from_api w topic api_url = Returns ([], [])).
Proof.
  intros Hcp. split.
  - intros Hsur. destruct (quote_returns topic Hcp Hsur) as (q & Eq & Hq & Hid).
    assert (Hreq : forall w api_url,
               lookup_response w topic api_url
               = http_get w (api_url ++ lit "?keyword=" ++ q)).
    { intros w api_url. unfold lookup_response. now rewrite Eq. }
    exists q. split; [exact Eq|]. split; [|split; [exact Hid|split]].
    + intros c Hin. rewrite forallb_forall in Hq. specialize (Hq c Hin).
      unfold url_safe, always_safe, in_range in Hq.
      repeat (apply orb_true_iff in Hq as [Hq | Hq]);
        try (apply andb_true_iff in Hq as [H1 H2];
             apply N.leb_le in H1, H2; repeat split; lia);
        apply N.eqb_eq in Hq; repeat split; lia.
    + intros w w' api_url E. unfold fetch_keywords_from_api.
      now rewrite !fetch_body_eq, !Hreq, E.
    + intros w api_url status content E Hs Hc.
      rewrite <- fromkeys_dedup_first.
      apply (fetch_content w topic api_url
               {| status_code := status;
                  body := Some (JObj [(lit "news", JStr content)]) |}
               [(lit "news", JStr content)]);
        [now rewrite Hreq | simpl; lia | simpl; lia | reflexivity
        | reflexivity | exact Hc].
  - intros Hsur w api_url. apply fetch_unavailable.
    apply (lu_failure _ _ _ UnicodeEncodeError).
    unfold lookup_response. now rewrite (quote_surrogate topic Hsur).
Qed.

(** X10. The context the orchestrator passes follows what the lookup
    found: the keywords joined by [", "] as soon as there is one keyword
    (the join is then never empty, so the content is not used), the content
    when there is content without keywords, and no context when there is
    neither. The call comes between the two reports the orchestrator
    prints. *)
Theorem agent_pipeline_lookup_context (out : console) (w : services) (topic : str) :
  exists kws news context,
    fetch_keywords_from_api w topic default_api_url = Returns (kws, news)
    /\ agent_pipeline out w topic
       = (_ <- print out 0 (initial_report kws news) ;;
          refined <- expand_keywords_mistral w topic context default_model_url ;;
          _ <- print out 1 (completion_report topic refined) ;;
          Returns {| keywords := refined;
                     boolean_query := join (lit " OR ") (map quoted refined) |})
    /\ (kws <> [] ->
        context = Some (join (lit ", ") kws)
        /\ join (lit ", ") kws <> [] /\ news <> [])
    /\ (kws = [] -> news <> [] -> context = Some news)
    /\ (kws = [] -> news = [] -> context = None).
Proof.
  assert (Hrun := agent_pipeline_chosen out
                    (fun topic context =>
                       expand_keywords_mistral w topic context default_model_url)
                    w topic).
  fold (agent_pipeline out w topic) in Hrun.
  destruct (fetch_cases w topic default_api_url) as [E | (content & Hc & E)].
  - exists [], [], None.
    split; [exact E|]. split; [exact (Hrun _ _ E)|].
    split; [intros H; congruence|]. split; [intros _ H; congruence | reflexivity].
  - set (kws := dedup_first (findall_keywords content)) in *.
    assert (Hk : kws <> [] -> join (lit ", ") kws <> []).
    { intros Hne. apply join_nonempty; [exact Hne|]. intros k Hin.
      apply dedup_first_In, findall_keywords_shape in Hin as [Hlen _].
      destruct k; [simpl in Hlen; lia | discriminate]. }
    exists kws, content,
      match kws, content with
      | [], [] => None
      | _, _ => Some (or_else (join (lit ", ") kws) content)
      end.
    split; [exact E|]. split; [exact (Hrun _ _ E)|]. split; [|split].
    + intros Hne. specialize (Hk Hne).
      destruct kws as [|k ks]; [congruence|].
      destruct (join (lit ", ") (k :: ks)); [congruence|].
      repeat split; auto; discriminate.
    + intros -> Hn. destruct content; [congruence | reflexivity].
    + congruence.
Qed.

End AdapterInvariant.

(** ** The expansion engine: requests, answers and failures *)

Lemma lstrip_id (p : codepoint -> bool) (s : str) :
  (forall c t, s = c :: t -> p c = false) -> lstrip p s = s.
Proof.
  destruct s as [|c t]; [reflexivity|]. intros H. simpl.
  now rewrite (H c t eq_refl).
Qed.

Lemma rstrip_id (p : codepoint -> bool) (s : str) :
  (forall t c, s = t ++ [c] -> p c = false) -> rstrip p s = s.
Proof.
  intros H. unfold rstrip. rewrite lstrip_id; [apply rev_involutive|].
  intros c t E. apply (H (rev t) c).
  rewrite <- (rev_involutive s), E. reflexivity.
Qed.

Lemma strip_id (p : codepoint -> bool) (s : str) :
  (forall c t, s = c :: t -> p c = false) ->
  (forall t c, s = t ++ [c] -> p c = false) ->
  strip p s = s.
Proof.
  intros Hh Hl. unfold strip. rewrite (lstrip_id p s Hh). now apply rstrip_id.
Qed.

Lemma strip_idempotent (p : codepoint -> bool) (s : str) :
  strip p (strip p s) = strip p s.
Proof. destruct (strip_ends p s) as [Hh Hl]. now apply strip_id. Qed.

Lemma split_on_forallb (p : codepoint -> bool) (d : codepoint) (s : str) :
  p d = true ->
  (forallb p s = true <->
   forall line, In line (split_on d s) -> forallb p line = true).
Proof.
  intros Hd. induction s as [|c t IH]; simpl.
  - split; [intros _ line [<- | []]; reflexivity | reflexivity].
  - destruct (c =? d) eqn:Ec.
    + apply N.eqb_eq in Ec. subst c. rewrite Hd. simpl. rewrite IH. split.
      * intros H line [<- | Hin]; [reflexivity | now apply H].
      * intros H line Hin. apply H. now right.
    + destruct (split_on d t) as [|l ls] eqn:Es.
      * split.
        -- intros H line [<- | []]. simpl.
           apply andb_true_iff in H as [-> _]. reflexivity.
        -- intros H. specialize (H [c] (or_introl eq_refl)). simpl in H.
           apply andb_true_iff in H as [Hc _]. rewrite Hc. simpl.
           apply IH. intros line [].
      * rewrite andb_true_iff, IH. split.
        -- intros [Hc H] line [<- | Hin].
           ++ simpl. rewrite Hc. apply H. now left.
           ++ apply H. now right.
        -- intros H. pose proof (H (c :: l) (or_introl eq_refl)) as Hcl.
           simpl in Hcl. apply andb_true_iff in Hcl as [Hc Hl].
           split; [exact Hc|]. intros line [<- | Hin]; [exact Hl|].
           apply H. now right.
Qed.

Lemma sub_annotations_id (s : str) :
  ~ In 40 s -> ~ In 91 s -> sub_annotations s = s.
Proof.
  unfold sub_annotations. induction s as [|c t IH]; [reflexivity|].
  intros H1 H2. simpl.
  replace (c =? 40) with false
    by (symmetry; apply N.eqb_neq; intros ->; apply H1; now left).
  replace (c =? 91) with false
    by (symmetry; apply N.eqb_neq; intros ->; apply H2; now left).
  rewrite IH; [reflexivity | |]; intros H; [apply H1 | apply H2]; now right.
Qed.

Lemma join_quoted_ends (sep k : str) (ks : list str) :
  exists body, join sep (map quoted (k :: ks)) = dq :: body ++ [dq].
Proof.
  revert k. induction ks as [|k' ks IH]; intros k.
  - exists k. reflexivity.
  - destruct (IH k') as (b & E).
    exists (k ++ [dq] ++ sep ++ dq :: b).
    change (join sep (map quoted (k :: k' :: ks)))
      with (quoted k ++ sep ++ join sep (map quoted (k' :: ks))).
    rewrite E. unfold quoted. cbn [app]. f_equal.
    repeat (rewrite <- app_assoc; cbn [app]). reflexivity.
Qed.

Section ExpansionFacts.
Context {U : UnicodeDB}.

Lemma expand_eq (w : services) (topic : str) (context : option str) (model_url : str) :
  expand_keywords_mistral w topic context model_url
  = (response <- http_post w model_url (expansion_payload topic context) ;;
     data <- response_json response ;;
     answer <- subscript data (lit "response") ;;
     result <- as_text answer ;;
     Returns (parse_keywords result)).
Proof. reflexivity. Qed.

Lemma expand_returns (w : services) (topic : str) (context : option str)
    (model_url : str) (kws : list str) :
  expand_keywords_mistral w topic context model_url = Returns kws ->
  exists text, kws = parse_keywords text.
Proof.
  rewrite expand_eq.
  destruct (http_post w model_url (expansion_payload topic context)) as [resp|e];
    simpl; [|discriminate].
  destruct (response_json resp) as [data|e]; simpl; [|discriminate].
  destruct (subscript data (lit "response")) as [v|e]; simpl; [|discriminate].
  destruct (as_text v) as [text|e]; simpl; [|discriminate].
  intros E; injection E as <-. now exists text.
Qed.

(** X11. When the model service answers the posted document with a JSON
    object whose [response] member is text, the expansion engine returns
    the keywords parsed from that text, whatever the HTTP status of the
    answer: the status is never looked at. *)
Theorem expand_keywords_parses_answer (w : services) (topic : str)
    (context : option str) (model_url : str)
    (resp : response) (m : list (str * json)) (text : str) :
  http_post w model_url (expansion_payload topic context) = Returns resp ->
  body resp = Some (JObj m) ->
  members_get m (lit "response") = Some (JStr text) ->
  expand_keywords_mistral w topic context model_url = Returns (parse_keywords text)
  /\ forall status,
       expand_keywords_mistral
         {| http_get := http_get w;
            http_post := fun url payload =>
              r <- http_post w url payload ;;
              Returns {| status_code := status; body := body r |} |}
         topic context model_url
       = Returns (parse_keywords text).
Proof.
  intros Ep Eb Em. split.
  - rewrite expand_eq, Ep. unfold response_json. simpl. rewrite Eb. simpl.
    now rewrite Em.
  - intros status. rewrite expand_eq. simpl. rewrite Ep.
    unfold response_json. simpl. rewrite Eb. simpl. now rewrite Em.
Qed.

(** X12. The expansion engine swallows no failure. A failed request raises
    the request's exception; an answer that is not JSON raises a decoding
    error; a JSON answer that is not an object raises [TypeError]; an
    object without [response] raises [KeyError]; a [response] that is not
    text raises [AttributeError]. *)
Theorem expand_keywords_failures (w : services) (topic : str)
    (context : option str) (model_url : str) :
  (forall e,
     http_post w model_url (expansion_payload topic context) = Raises e ->
     expand_keywords_mistral w topic context model_url = Raises e)
  /\ (forall resp,
      http_post w model_url (expansion_payload topic context) = Returns resp ->
      (body resp = None ->
       expand_keywords_mistral w topic context model_url = Raises JSONDecodeError)
      /\ (forall data, body resp = Some data -> (forall m, data <> JObj m) ->
          expand_keywords_mistral w topic context model_url = Raises TypeError)
      /\ (forall m, body resp = Some (JObj m) ->
          members_get m (lit "response") = None ->
          expand_keywords_mistral w topic context model_url = Raises KeyError)
      /\ (forall m v, body resp = Some (JObj m) ->
          members_get m (lit "response") = Some v -> (forall s, v <> JStr s) ->
          expand_keywords_mistral w topic context model_url
          = Raises AttributeError)).
Proof.
  split.
  - intros e E. now rewrite expand_eq, E.
  - intros resp E. rewrite expand_eq, E. unfold response_json. simpl.
    split; [|split; [|split]].
    + intros ->. reflexivity.
    + intros data -> Hd. simpl. destruct data; try reflexivity.
      now destruct (Hd members).
    + intros m -> Hm. simpl. now rewrite Hm.
    + intros m v -> Hm Hv. simpl. rewrite Hm. simpl.
      destruct v; try reflexivity. now destruct (Hv s).
Qed.

Lemma clean_line_plain (line : str) :
  plain line ->
  (forall c t, line = c :: t -> isspace c = false) ->
  (forall t c, line = t ++ [c] -> isspace c = false) ->
  clean_line line = line.
Proof.
  intros (H40 & H91 & Hh & Hl) Hsh Hsl. unfold clean_line.
  assert (He : sub_enumeration line = line).
  { unfold sub_enumeration. destruct line as [|c t]; [reflexivity|].
    now destruct (Hh c t eq_refl) as [-> _]. }
  rewrite He, (sub_annotations_id line H40 H91).
  assert (Hq : forall q, (q = dq \/ q = sq) -> strip (N.eqb q) line = line).
  { intros q Hq. apply strip_id.
    - intros c t E. destruct (Hh c t E) as (_ & H1 & H2).
      apply N.eqb_neq. destruct Hq; congruence.
    - intros t c E. destruct (Hl t c E) as (H1 & H2).
      apply N.eqb_neq. destruct Hq; congruence. }
  rewrite (Hq dq), (Hq sq); auto. now apply strip_id.
Qed.

(** X13. An answer made of plain lines comes back as it is: when no line,
    once trimmed, has an opening parenthesis or bracket, a digit or quote in
    front or a quote at the end, the keyword list is the list of the
    trimmed non-blank lines, in order. *)
Theorem parse_keywords_plain (result : str) :
  (forall line, In line (split_on nl result) -> plain (strip isspace line)) ->
  parse_keywords result
  = map (strip isspace) (filter non_blank (split_on nl result)).
Proof.
  intros Hplain. rewrite parse_keywords_map. apply map_ext_in.
  intros line Hin. apply filter_In in Hin as [Hin _].
  destruct (strip_ends isspace line) as [Hh Hl].
  apply clean_line_plain; auto.
Qed.

(** X14. The keyword list is empty exactly when the answer holds nothing
    but white space (line breaks included); an empty answer is such. *)
Theorem parse_keywords_blank (result : str) :
  (parse_keywords result = [] <-> forallb isspace result = true)
  /\ parse_keywords [] = [].
Proof.
  split; [|reflexivity].
  rewrite parse_keywords_map, (split_on_forallb isspace nl result eq_refl).
  split.
  - intros E line Hin. apply strip_nil.
    destruct (strip isspace line) eqn:Es; [reflexivity|].
    apply map_eq_nil in E.
    assert (Hf : In line (filter non_blank (split_on nl result))).
    { apply filter_In. split; [exact Hin|]. unfold non_blank. now rewrite Es. }
    rewrite E in Hf. destruct Hf.
  - intros H.
    replace (filter non_blank (split_on nl result)) with (@nil str); [reflexivity|].
    symmetry. induction (split_on nl result) as [|l ls IH]; [reflexivity|].
    simpl. unfold non_blank at 1.
    rewrite (proj2 (strip_nil isspace l) (H l (or_introl eq_refl))).
    apply IH. intros line Hin. apply H. now right.
Qed.

(** X15. A response of the orchestrator carries the keywords the expansion
    engine parsed from the model's answer, and its query is empty exactly
    when there is no keyword; otherwise the query begins and ends with a
    double quote. *)
Theorem agent_pipeline_response (out : console) (w : services) (topic : str)
    (r : QueryResponse) :
  agent_pipeline out w topic = Returns r ->
  (exists context text,
     expand_keywords_mistral w topic context default_model_url
     = Returns (keywords r)
     /\ keywords r = parse_keywords text)
  /\ (boolean_query r = [] <-> keywords r = [])
  /\ (keywords r <> [] -> exists body, boolean_query r = dq :: body ++ [dq]).
Proof.
  intros Hr.
  destruct (fetch_total w topic default_api_url) as (kws & news & E).
  pose proof (agent_pipeline_chosen out
                (fun topic context =>
                   expand_keywords_mistral w topic context default_model_url)
                w topic kws news E) as Hrun.
  fold (agent_pipeline out w topic) in Hrun. rewrite Hrun in Hr. clear Hrun.
  assert (Hex : exists context,
             expand_keywords_mistral w topic context default_model_url
             = Returns (keywords r)
             /\ boolean_query r = join (lit " OR ") (map quoted (keywords r))).
  { destruct (print out 0 (initial_report kws news)) as [[]|e];
      cbn [bind] in Hr; [|discriminate].
    match type of Hr with
    | bind (expand_keywords_mistral _ _ ?ctx _) _ = _ =>
        exists ctx;
        destruct (expand_keywords_mistral w topic ctx default_model_url)
          as [refined|e]; cbn [bind] in Hr; [|discriminate]
    end.
    destruct (print out 1 (completion_report topic refined)) as [[]|e];
      cbn [bind] in Hr; [|discriminate].
    injection Hr as <-. split; reflexivity. }
  destruct Hex as (context & Hexp & Hq).
  split; [|split].
  - destruct (expand_returns _ _ _ _ _ Hexp) as (text & Ht).
    now exists context, text.
  - rewrite Hq. apply join_quoted_nil.
  - intros Hne. rewrite Hq. destruct (keywords r) as [|k ks]; [congruence|].
    apply join_quoted_ends.
Qed.

End ExpansionFacts.

(** ** The expansion engine: choice of the prompt, and lines *)

Lemma split_on_cons (d : codepoint) (s : str) : split_on d s <> [].
Proof.
  induction s as [|c s IH]; simpl; [discriminate|].
  destruct (c =? d); [discriminate|].
  destruct (split_on d s); [congruence | discriminate].
Qed.

Lemma split_on_app (d : codepoint) (a b : str) :
  split_on d (a ++ d :: b) = split_on d a ++ split_on d b.
Proof.
  induction a as [|c a IH]; simpl.
  - now rewrite N.eqb_refl.
  - destruct (c =? d); [now rewrite IH|]. rewrite IH.
    pose proof (split_on_cons d a) as Hne.
    destruct (split_on d a) as [|l ls]; [congruence | reflexivity].
Qed.

Lemma in_indic_block_range (c : codepoint) :
  in_indic_block c = true <-> 0x0900 <= c <= 0x0D7F.
Proof. rewrite in_indic_block_spec. lia. Qed.

Section PromptFacts.
Context {U : UnicodeDB}.

Lemma prompts_differ (topic context : str) :
  english_prompt topic context <> indian_prompt topic context.
Proof.
  intros E. apply (f_equal (fun s => nth 60 s 0)) in E.
  unfold english_prompt, indian_prompt in E. cbn in E. discriminate.
Qed.

(** X16. The script of the topic chooses the prompt the expansion engine
    posts: the one request it makes is a POST of a document that names the
    model, asks for no streaming and carries the English template for a
    topic of code points below 128, the Indian template as soon as the
    topic has a character between U+0900 and U+0D7F, the range the nine
    blocks fill without a gap. The two templates never give the same
    prompt, and the engine's result depends on the service only through
    the answer to that document. *)
Theorem expansion_prompt_choice (topic : str) (context : option str) :
  exists prompt,
    (forall w model_url,
       expand_keywords_mistral w topic context model_url
       = (response <- http_post w model_url
                        (JObj [ (lit "model", JStr (lit "mistral-small3.1:latest"));
                                (lit "prompt", JStr prompt);
                                (lit "stream", JBool false) ]) ;;
          data <- response_json response ;;
          answer <- subscript data (lit "response") ;;
          result <- as_text answer ;;
          Returns (parse_keywords result)))
    /\ (forall w w' model_url,
        http_post w model_url
          (JObj [ (lit "model", JStr (lit "mistral-small3.1:latest"));
                  (lit "prompt", JStr prompt);
                  (lit "stream", JBool false) ])
        = http_post w' model_url
            (JObj [ (lit "model", JStr (lit "mistral-small3.1:latest"));
                    (lit "prompt", JStr prompt);
                    (lit "stream", JBool false) ]) ->
        expand_keywords_mistral w topic context model_url
        = expand_keywords_mistral w' topic context model_url)
    /\ ((forall c, In c topic -> c < 128) ->
        prompt = english_prompt topic match context with Some c => c | None => [] end)
    /\ ((exists c, In c topic /\ 0x0900 <= c <= 0x0D7F) ->
        prompt = indian_prompt topic match context with Some c => c | None => [] end)
    /\ english_prompt topic match context with Some c => c | None => [] end
       <> indian_prompt topic match context with Some c => c | None => [] end
    /\ (forall c, in_indic_block c = true <-> 0x0900 <= c <= 0x0D7F).
Proof.
  eexists. split; [intros w model_url; reflexivity|].
  split; [|split; [|split; [|split]]].
  - intros w w' model_url E. rewrite !expand_eq. unfold expansion_payload.
    now rewrite E.
  - intros Hlow.
    replace (is_ascii topic) with true; [reflexivity|].
    symmetry. rewrite is_ascii_eq. apply andb_true_iff. split.
    + apply negb_true_iff, not_true_is_false. intros H.
      apply existsb_exists in H as (c & Hin & Hc).
      apply in_indic_block_range in Hc. specialize (Hlow c Hin). lia.
    + apply forallb_forall. intros c Hin. apply filter_In in Hin as [Hin _].
      apply N.ltb_lt. now apply Hlow.
  - intros (c & Hin & Hc). apply in_indic_block_range in Hc.
    now rewrite (is_ascii_indic topic c Hin Hc).
  - apply prompts_differ.
  - apply in_indic_block_range.
Qed.

(** X17. The answer is parsed line by line: the keywords of two texts
    joined by a line break are the keywords of the first followed by those
    of the second. Nothing is deduplicated: a text followed by a line break
    and itself gives its keywords twice. *)
Theorem parse_keywords_lines (a b : str) :
  parse_keywords (a ++ nl :: b) = parse_keywords a ++ parse_keywords b
  /\ parse_keywords (a ++ nl :: a) = parse_keywords a ++ parse_keywords a
  /\ length (parse_keywords (a ++ nl :: b))
     = (length (parse_keywords a) + length (parse_keywords b))%nat.
Proof.
  assert (H : forall x y,
             parse_keywords (x ++ nl :: y) = parse_keywords x ++ parse_keywords y).
  { intros x y. rewrite !parse_keywords_map, split_on_app, filter_app.
    apply map_app. }
  split; [apply H|]. split; [apply H|]. now rewrite H, length_app.
Qed.

End PromptFacts.

(** ** Witnesses *)

Lemma fetch_topic_encoding_witness :
  fetch_keywords_from_api (U := ascii_db)
    {| http_get := fun url =>
         if str_eqb url (default_api_url ++ lit "?keyword=Trump%20tariff%20%26%20GST")
         then Returns {| status_code := 200;
                         body := Some (JObj [(lit "news",
                                              JStr (lit "Modi visits Delhi"))]) |}
         else Raises ConnectionError;
       http_post := fun _ _ => Raises ConnectionError |}
    (lit "Trump tariff & GST") default_api_url
  = Returns ([lit "Modi"; lit "Delhi"], lit "Modi visits Delhi")
  /\ fetch_keywords_from_api (U := ascii_db)
       (answering 200 None (lit "")) [0xD800] default_api_url
     = Returns ([], []).
Proof.
  destruct (@fetch_topic_encoding ascii_db (lit "Trump tariff & GST"))
    as [Hq _].
  { intros c Hin. simpl in Hin.
    repeat (destruct Hin as [<- | Hin]; [discriminate|]). destruct Hin. }
  destruct (@fetch_topic_encoding ascii_db [0xD800]) as [_ Hs].
  { intros c [<- | []]. discriminate. }
  destruct Hq as (q & Eq & _ & _ & _ & Hcontent).
  { intros c Hin. simpl in Hin.
    repeat (destruct Hin as [<- | Hin]; [reflexivity|]). destruct Hin. }
  change (quote (lit "Trump tariff & GST"))
    with (Returns (lit "Trump%20tariff%20%26%20GST")) in Eq.
  injection Eq as <-.
  split.
  - apply (Hcontent _ default_api_url 200%Z (lit "Modi visits Delhi"));
      [reflexivity | reflexivity | discriminate].
  - apply Hs. exists 0xD800. split; [now left | reflexivity].
Defined.

Lemma expand_keywords_parses_answer_witness :
  expand_keywords_mistral (U := ascii_db)
    {| http_get := fun _ => Raises ConnectionError;
       http_post := fun _ _ =>
         Returns {| status_code := 500;
                    body := Some (JObj [(lit "response",
                                         JStr (lit "#IndiaTrade"))]) |} |}
    (lit "Trump tariff") None default_model_url
  = Returns [lit "#IndiaTrade"].
Proof.
  apply (@expand_keywords_parses_answer ascii_db _ (lit "Trump tariff") None
           default_model_url
           {| status_code := 500;
              body := Some (JObj [(lit "response", JStr (lit "#IndiaTrade"))]) |}
           [(lit "response", JStr (lit "#IndiaTrade"))] (lit "#IndiaTrade"));
    reflexivity.
Defined.

Lemma parse_keywords_plain_witness :
  parse_keywords (U := ascii_db) (lit "#IndiaTrade" ++ nl :: lit "  India-US trade war ")
  = [lit "#IndiaTrade"; lit "India-US trade war"].
Proof.
  rewrite (@parse_keywords_plain ascii_db); [reflexivity|].
  intros line [<- | [<- | []]];
    (split; [|split; [|split]]);
    [ simpl; intuition discriminate
    | simpl; intuition discriminate
    | intros c t E; injection E as <- _; repeat split; discriminate
    | intros t c E;
      apply (f_equal (@rev codepoint)) in E; rewrite rev_app_distr in E;
      injection E as <- _; split; discriminate
    | simpl; intuition discriminate
    | simpl; intuition discriminate
    | intros c t E; injection E as <- _; repeat split; discriminate
    | intros t c E;
      apply (f_equal (@rev codepoint)) in E; rewrite rev_app_distr in E;
      injection E as <- _; split; discriminate ].
Defined.

Lemma agent_pipeline_response_witness :
  agent_pipeline (U := ascii_db) utf8_console
    (answering 404 None (lit "1. #IndiaTrade (hashtag)" ++ [nl] ++ lit "GST"))
    (lit "Trump tariff")
  = Returns {| keywords := [lit "#IndiaTrade"; lit "GST"];
               boolean_query :=
                 quoted (lit "#IndiaTrade") ++ lit " OR " ++ quoted (lit "GST") |}
  /\ exists body,
       quoted (lit "#IndiaTrade") ++ lit " OR " ++ quoted (lit "GST")
       = dq :: body ++ [dq].
Proof.
  split; [reflexivity|].
  destruct (@agent_pipeline_response ascii_db utf8_console
              (answering 404 None (lit "1. #IndiaTrade (hashtag)" ++ [nl] ++ lit "GST"))
              (lit "Trump tariff")
              {| keywords := [lit "#IndiaTrade"; lit "GST"];
                 boolean_query :=
                   quoted (lit "#IndiaTrade") ++ lit " OR " ++ quoted (lit "GST") |}
              eq_refl) as (_ & _ & Hends).
  apply Hends. discriminate.
Defined.

(** ** The orchestrator on a standard output in UTF-8 *)








Section Utf8Console.
Context {U : UnicodeDB}.


End Utf8Console.

